(** * simple-kyc: the browser face recogniser (public/static/face-recognizer.js)

    A shallow embedding of the [FaceRecognition] class: its fields become a
    record, its methods become computations in a small state-and-exception
    monad that also records the calls made to the host (DOM, camera,
    face-api, console) in a trace.  JavaScript numbers are IEEE binary64
    values, modelled by Rocq's primitive floats. *)

From Stdlib Require Import PrimFloat.
From stdpp Require Import base list strings gmap.

Set Warnings "-inexact-float,-clear-no-such-hyp".

Open Scope string_scope.
Open Scope list_scope.

(** ** JavaScript values used by the class *)

(** Values thrown or used as rejection reasons.  [Errors] is the array of
    reasons that [loadModels] rejects with. *)
#[warnings="-register-all"]
Inductive JsError : Type :=
| Error (msg : string)
| TypeError (msg : string)
| Errors (reasons : list JsError).

(** Outcome of a call, or of a settled promise once awaited. *)
Inductive result (A : Type) : Type :=
| Ok (a : A)
| Throw (e : JsError).
Arguments Ok {A} a.
Arguments Throw {A} e.

Definition is_rejected {A} (r : result A) : bool :=
  match r with Ok _ => false | Throw _ => true end.

Definition reason {A} (r : result A) : option JsError :=
  match r with Ok _ => None | Throw e => Some e end.

(** A number, or [undefined] (the value of a missing property and of an
    optional chain on a nullish object). *)
Inductive JsNumber : Type :=
| Undefined
| Num (x : float).

(** [a < b] on numbers. *)
Definition js_lt (a b : float) : bool := PrimFloat.ltb a b.

(** [a > b] where [a] may be [undefined]: [undefined] converts to NaN and
    every comparison with NaN is false. *)
Definition js_gt (a : JsNumber) (b : float) : bool :=
  match a with
  | Undefined => false
  | Num x => PrimFloat.ltb b x
  end.

(** ** A JavaScript [Map] with string keys: entries in insertion order *)

Definition JsMap (V : Type) : Type := list (string * V).

Fixpoint map_has {V} (m : JsMap V) (k : string) : bool :=
  match m with
  | [] => false
  | (k', _) :: m' => if String.eqb k' k then true else map_has m' k
  end.

Fixpoint map_get {V} (m : JsMap V) (k : string) : option V :=
  match m with
  | [] => None
  | (k', v) :: m' => if String.eqb k' k then Some v else map_get m' k
  end.

(** [set] overwrites the value of a present key where it stands and adds a
    new key at the end. *)
Fixpoint map_set {V} (m : JsMap V) (k : string) (v : V) : JsMap V :=
  match m with
  | [] => [(k, v)]
  | (k', v') :: m' =>
      if String.eqb k' k then (k', v) :: m' else (k', v') :: map_set m' k v
  end.

Definition map_size {V} (m : JsMap V) : nat := length m.
Definition map_keys {V} (m : JsMap V) : list string := map fst m.

(** ** Data of the recogniser *)

Definition Descriptor : Type := list float.
Definition Canvas : Type := nat.
Definition Track : Type := nat.
Definition Image : Type := string.

Record Box : Type := { box_x : float; box_y : float; box_w : float; box_h : float }.

Record DisplaySize : Type := { ds_width : nat; ds_height : nat }.

(** One face found by face-api: [detection.box], [descriptor] and the
    optional [expressions] scores, a mapping from expression name to score. *)
Record FaceDescription : Type := {
  detection_box : Box;
  descriptor : Descriptor;
  expressions : option (JsMap float)
}.

Record LabeledFaceDescriptors : Type := {
  lfd_label : string;
  lfd_descriptors : list Descriptor
}.

Record FaceMatch : Type := { label : string; distance : float }.

Record MediaStream : Type := { getTracks : list Track }.

Record VideoElement : Type := {
  width : nat;
  height : nat;
  srcObject : option MediaStream;
  playListeners : nat;      (* handlers registered for 'play' *)
  onended : bool            (* whether [onended] calls [stopProcessing] *)
}.

Record Config : Type := {
  modelUri : string;
  videoElementId : string;
  labels : list string;
  minConfidenceThreshold : float;
  distanceThreshold : float;
  smileDetectionThreshold : float
}.

Inductive Net : Type :=
| ssdMobilenetv1
| faceRecognitionNet
| faceLandmark68Net
| faceExpressionNet.

(** Calls made to the host, in the order they happen. *)
Inductive event : Type :=
| LoadFromUri (n : Net) (uri : string)
| ConsoleError (msg : string) (args : list JsError)
| FetchImage (path : string)
| DetectImage (img : Image)
| GetUserMedia
| TrackStop (t : Track)
| AppendVideo (id : string)
| Append (c : Canvas)
| Remove (c : Canvas)
| MatchDimensions (c : Canvas) (d : DisplaySize)
| ClearRect (c : Canvas)
| DrawBox (c : Canvas) (b : Box) (lbl : string)
| DetectVideo (minConfidence : float)
| MatcherDispose
| RequestAnimationFrame
| UnhandledRejection (e : JsError).

(** ** The matcher of face-api *)

(** Modelled from the spec: [faceapi.FaceMatcher]; its code, the vendored
    public/static/face-api.min.js, is missing.  The spec describes the
    matcher as an immutable snapshot of the gallery supporting
    nearest-descriptor lookup, answering the best label or "unknown", and
    states that an empty gallery yields a matcher that never throws and
    classifies every probe as "unknown".  The distance between two
    descriptors is left to the host. *)
Definition FaceMatcher : Type := list LabeledFaceDescriptors.

(** Modelled from the spec: building a matcher never throws, also on an
    empty input. *)
Definition FaceMatcher_new (inputs : list LabeledFaceDescriptors)
  : result FaceMatcher := Ok inputs.

(** Modelled from the spec: one step of the nearest-descriptor lookup, which
    keeps the closer of the best match so far and the reference descriptor
    [d] enrolled under [l]. *)
Definition nearer (dist : Descriptor -> Descriptor -> float) (probe : Descriptor)
    (l : string) (best : FaceMatch) (d : Descriptor) : FaceMatch :=
  if PrimFloat.ltb (dist probe d) (distance best)
  then {| label := l; distance := dist probe d |}
  else best.

(** Modelled from the spec: [matcher.findBestMatch(descriptor)], the
    nearest-descriptor lookup over the gallery; with nothing to compare
    against the answer is "unknown". *)
Definition findBestMatch (dist : Descriptor -> Descriptor -> float)
    (m : FaceMatcher) (probe : Descriptor) : FaceMatch :=
  fold_left
    (fun best e => fold_left (nearer dist probe (lfd_label e)) (lfd_descriptors e) best)
    m {| label := "unknown"; distance := infinity |}.

(** Modelled from the spec: [matcher.dispose()], also part of the vendored
    library; the spec has disposal clear the cached matcher and never be an
    error. *)
Definition FaceMatcher_dispose (m : FaceMatcher) : result unit := Ok tt.

(** ** The host: everything the class calls but does not define *)

Record Env : Type := {
  (* faceapi.nets.<net>.loadFromUri(uri), once awaited *)
  loadFromUri : Net -> string -> result unit;
  (* faceapi.fetchImage(path), once awaited *)
  fetchImage : string -> result Image;
  (* faceapi.detectAllFaces(img).withFaceLandmarks().withFaceDescriptors() *)
  detectAllFaces : Image -> result (list FaceDescription);
  (* navigator.mediaDevices.getUserMedia({ video: true }) *)
  getUserMedia : result MediaStream;
  (* track.stop() *)
  trackStop : Track -> result unit;
  (* faceapi.resizeResults(detections, displaySize) *)
  resizeResults : list FaceDescription -> option DisplaySize -> list FaceDescription;
  (* distance between two descriptors, used by the matcher *)
  descriptorDistance : Descriptor -> Descriptor -> float
}.

(** ** State: the fields of the instance, the static field of the class,
    and what the host keeps (animation-frame queue, suspended iterations,
    fresh element names, trace) *)

Record State : Type := mkState {
  config : Config;
  videoElement : option VideoElement;
  canvas : option Canvas;
  displaySize : option DisplaySize;
  labeledDescriptors : JsMap (list Descriptor);
  canvasPool : list Canvas;
  maxCanvasPoolSize : nat;
  faceMatcher : option FaceMatcher;
  videoStream : option MediaStream;
  modelLoader : option (result bool);   (* static FaceRecognition.modelLoader *)
  nextElement : nat;                    (* name of the next created element *)
  rafQueue : nat;                       (* callbacks waiting for a frame *)
  awaiting : nat;                       (* iterations suspended on detection *)
  trace : list event
}.

Definition set_videoElement (v : option VideoElement) (s : State) : State :=
  mkState (config s) v (canvas s) (displaySize s) (labeledDescriptors s)
    (canvasPool s) (maxCanvasPoolSize s) (faceMatcher s) (videoStream s)
    (modelLoader s) (nextElement s) (rafQueue s) (awaiting s) (trace s).
Definition set_canvas (c : option Canvas) (s : State) : State :=
  mkState (config s) (videoElement s) c (displaySize s) (labeledDescriptors s)
    (canvasPool s) (maxCanvasPoolSize s) (faceMatcher s) (videoStream s)
    (modelLoader s) (nextElement s) (rafQueue s) (awaiting s) (trace s).
Definition set_displaySize (d : option DisplaySize) (s : State) : State :=
  mkState (config s) (videoElement s) (canvas s) d (labeledDescriptors s)
    (canvasPool s) (maxCanvasPoolSize s) (faceMatcher s) (videoStream s)
    (modelLoader s) (nextElement s) (rafQueue s) (awaiting s) (trace s).
Definition set_labeledDescriptors (m : JsMap (list Descriptor)) (s : State) : State :=
  mkState (config s) (videoElement s) (canvas s) (displaySize s) m
    (canvasPool s) (maxCanvasPoolSize s) (faceMatcher s) (videoStream s)
    (modelLoader s) (nextElement s) (rafQueue s) (awaiting s) (trace s).
Definition set_canvasPool (p : list Canvas) (s : State) : State :=
  mkState (config s) (videoElement s) (canvas s) (displaySize s) (labeledDescriptors s)
    p (maxCanvasPoolSize s) (faceMatcher s) (videoStream s)
    (modelLoader s) (nextElement s) (rafQueue s) (awaiting s) (trace s).
Definition set_faceMatcher (m : option FaceMatcher) (s : State) : State :=
  mkState (config s) (videoElement s) (canvas s) (displaySize s) (labeledDescriptors s)
    (canvasPool s) (maxCanvasPoolSize s) m (videoStream s)
    (modelLoader s) (nextElement s) (rafQueue s) (awaiting s) (trace s).
Definition set_videoStream (v : option MediaStream) (s : State) : State :=
  mkState (config s) (videoElement s) (canvas s) (displaySize s) (labeledDescriptors s)
    (canvasPool s) (maxCanvasPoolSize s) (faceMatcher s) v
    (modelLoader s) (nextElement s) (rafQueue s) (awaiting s) (trace s).
Definition set_modelLoader (p : option (result bool)) (s : State) : State :=
  mkState (config s) (videoElement s) (canvas s) (displaySize s) (labeledDescriptors s)
    (canvasPool s) (maxCanvasPoolSize s) (faceMatcher s) (videoStream s)
    p (nextElement s) (rafQueue s) (awaiting s) (trace s).
Definition set_nextElement (n : nat) (s : State) : State :=
  mkState (config s) (videoElement s) (canvas s) (displaySize s) (labeledDescriptors s)
    (canvasPool s) (maxCanvasPoolSize s) (faceMatcher s) (videoStream s)
    (modelLoader s) n (rafQueue s) (awaiting s) (trace s).
Definition set_rafQueue (n : nat) (s : State) : State :=
  mkState (config s) (videoElement s) (canvas s) (displaySize s) (labeledDescriptors s)
    (canvasPool s) (maxCanvasPoolSize s) (faceMatcher s) (videoStream s)
    (modelLoader s) (nextElement s) n (awaiting s) (trace s).
Definition set_awaiting (n : nat) (s : State) : State :=
  mkState (config s) (videoElement s) (canvas s) (displaySize s) (labeledDescriptors s)
    (canvasPool s) (maxCanvasPoolSize s) (faceMatcher s) (videoStream s)
    (modelLoader s) (nextElement s) (rafQueue s) n (trace s).
Definition set_trace (t : list event) (s : State) : State :=
  mkState (config s) (videoElement s) (canvas s) (displaySize s) (labeledDescriptors s)
    (canvasPool s) (maxCanvasPoolSize s) (faceMatcher s) (videoStream s)
    (modelLoader s) (nextElement s) (rafQueue s) (awaiting s) t.

(** ** The monad: state passing with exceptions.  A thrown value leaves the
    state as it was at the throw, as in JavaScript. *)

Definition M (A : Type) : Type := State -> result A * State.

Definition ret {A} (a : A) : M A := fun s => (Ok a, s).
Definition throw {A} (e : JsError) : M A := fun s => (Throw e, s).
Definition bind {A B} (m : M A) (k : A -> M B) : M B :=
  fun s => match m s with
           | (Ok a, s') => k a s'
           | (Throw e, s') => (Throw e, s')
           end.
Definition get : M State := fun s => (Ok s, s).
Definition modify (f : State -> State) : M unit := fun s => (Ok tt, f s).
Definition lift {A} (r : result A) : M A := fun s => (r, s).
Definition emit (e : event) : M unit :=
  modify (fun s => set_trace (trace s ++ [e]) s).

(** [try { body } catch (error) { handler }] *)
Definition try_catch {A} (body : M A) (handler : JsError -> M A) : M A :=
  fun s => match body s with
           | (Ok a, s') => (Ok a, s')
           | (Throw e, s') => handler e s'
           end.

(** A call of an async function whose promise nobody awaits: a rejection is
    reported by the host and the caller goes on. *)
Definition detached (m : M unit) : M unit :=
  try_catch m (fun e => emit (UnhandledRejection e)).

Notation "'do' x <- m ; k" := (bind m (fun x => k))
  (at level 10, x name, m at level 100, k at level 200).

(** [for (const x of xs) body(x)] *)
Fixpoint for_of {A} (xs : list A) (body : A -> M unit) : M unit :=
  match xs with
  | [] => ret tt
  | x :: xs' => do _ <- body x; for_of xs' body
  end.

(** [Array.prototype.pop] and [push]: the end of the list is the top. *)
Definition array_pop {A} (a : list A) : option (A * list A) :=
  match last a with
  | Some x => Some (x, removelast a)
  | None => None
  end.
Definition array_push {A} (a : list A) (x : A) : list A := a ++ [x].

(** [`/static/labels/${label}.jpg`] *)
Definition imagePathOf (label : string) : string :=
  "/static/labels/" +:+ label +:+ ".jpg".

(** [`Error processing image ${imagePath}: `], the text before the error. *)
Definition imageErrorText (imagePath : string) : string :=
  "Error processing image " +:+ imagePath +:+ ": ".

(** ** The methods of [FaceRecognition]

    An async method is modelled from its call to the settling of its
    promise: awaiting it is running it, and a rejection is a [Throw].  Only
    [processVideoFrames] is cut at its [await], because other handlers run
    while a frame is being analysed. *)

Section FaceRecognition.

Variable env : Env.

Definition nets : list Net :=
  [ssdMobilenetv1; faceRecognitionNet; faceLandmark68Net; faceExpressionNet].

(** The callback given to [then] in [loadModels], as a value: the outcome of
    the promise stored in [modelLoader]. *)
Definition modelsOutcome (results : list (result unit)) : result bool :=
  if existsb is_rejected results
  then Throw (Errors (omap reason results))
  else Ok true.

(** [static async loadModels(modelUri)] *)
Definition loadModels (modelUri : string) : M bool :=
  do s <- get;
  match modelLoader s with
  | Some loader => lift loader
  | None =>
      do _ <- for_of nets (fun n => emit (LoadFromUri n modelUri));
      let results := map (fun n => loadFromUri env n modelUri) nets in
      do _ <- modify (set_modelLoader (Some (modelsOutcome results)));
      do _ <- (if existsb is_rejected results
               then emit (ConsoleError "Error loading models:"
                            [Errors (omap reason results)])
               else ret tt);
      lift (modelsOutcome results)
  end.

(** [createVideoElement()] *)
Definition createVideoElement (cfg : Config) : VideoElement :=
  {| width := 0; height := 0; srcObject := None;
     playListeners := 0; onended := false |}.

(** [new FaceRecognition(config)] in a fresh page; [found] is what
    [document.getElementById(config.videoElementId)] returns. *)
Definition FaceRecognition_new (cfg : Config) (found : option VideoElement) : State :=
  {| config := cfg;
     videoElement :=
       Some (match found with Some v => v | None => createVideoElement cfg end);
     canvas := None;
     displaySize := None;
     labeledDescriptors := [];
     canvasPool := [];
     maxCanvasPoolSize := 10;
     faceMatcher := None;
     videoStream := None;
     modelLoader := None;
     nextElement := 0;
     rafQueue := 0;
     awaiting := 0;
     trace := match found with
              | Some _ => []
              | None => [AppendVideo (videoElementId cfg)]
              end |}.

(** Reading a property of [this.videoElement]. *)
Definition theVideo : M VideoElement :=
  do s <- get;
  match videoElement s with
  | Some v => ret v
  | None => throw (TypeError "Cannot read properties of null (videoElement)")
  end.

(** Writing properties of [this.videoElement]. *)
Definition updateVideo (f : VideoElement -> VideoElement) : M unit :=
  do v <- theVideo;
  modify (set_videoElement (Some (f v))).

(** [this.canvasPool.length > 0 ? this.canvasPool.pop()
                                 : document.createElement('canvas')] *)
Definition takeCanvas : M Canvas :=
  do s <- get;
  match array_pop (canvasPool s) with
  | Some (c, rest) =>
      do _ <- modify (set_canvasPool rest);
      ret c
  | None =>
      do _ <- modify (set_nextElement (S (nextElement s)));
      ret (nextElement s)
  end.

(** [setupCanvas()] *)
Definition setupCanvas : M unit :=
  do s <- get;
  match canvas s with
  | Some _ => ret tt
  | None =>
      do c <- takeCanvas;
      do _ <- modify (set_canvas (Some c));
      do _ <- emit (Append c);
      do v <- theVideo;
      let size := {| ds_width := width v; ds_height := height v |} in
      do _ <- modify (set_displaySize (Some size));
      emit (MatchDimensions c size)
  end.

(** [createCanvas()] *)
Definition createCanvas : M unit :=
  do s <- get;
  match canvas s with
  | Some _ => ret tt
  | None =>
      do c <- takeCanvas;
      do _ <- modify (set_canvas (Some c));
      emit (Append c)
  end.

(** [updateCanvasSize()] *)
Definition updateCanvasSize : M unit :=
  do s <- get;
  match canvas s with
  | Some c =>
      do v <- theVideo;
      let size := {| ds_width := width v; ds_height := height v |} in
      do _ <- modify (set_displaySize (Some size));
      emit (MatchDimensions c size)
  | None => ret tt
  end.

(** [cleanupCanvas()] *)
Definition cleanupCanvas : M unit :=
  do s <- get;
  match canvas s with
  | Some c =>
      do _ <- (if Nat.ltb (length (canvasPool s)) (maxCanvasPoolSize s)
               then modify (set_canvasPool (array_push (canvasPool s) c))
               else emit (Remove c));
      modify (set_canvas None)
  | None => ret tt
  end.

(** [disposeUnusedResources()] *)
Definition disposeUnusedResources : M unit :=
  modify (set_labeledDescriptors []).

(** [disposeFaceMatcher()] *)
Definition disposeFaceMatcher : M unit :=
  do s <- get;
  match faceMatcher s with
  | Some matcher =>
      do _ <- emit MatcherDispose;
      do _ <- lift (FaceMatcher_dispose matcher);
      modify (set_faceMatcher None)
  | None => ret tt
  end.

(** [setupWebcam()] *)
Definition setupWebcam : M unit :=
  do s <- get;
  match videoStream s with
  | Some _ => ret tt
  | None =>
      do _ <- emit GetUserMedia;
      do stream <- lift (getUserMedia env);
      do _ <- modify (set_videoStream (Some stream));
      do _ <- updateVideo (fun v =>
                {| width := width v; height := height v;
                   srcObject := Some stream;
                   playListeners := playListeners v; onended := onended v |});
      do _ <- createCanvas;
      updateCanvasSize
  end.

(** [stopWebcam()].  [getTracks().map(track => track.stop())] calls [stop]
    on the tracks in order and ends at the first call that throws.  The
    array it awaits holds no promise, so the method resumes in the same
    turn of the event loop, before any other handler runs. *)
Definition stopWebcam : M unit :=
  do s <- get;
  match videoStream s with
  | Some stream =>
      do _ <- for_of (getTracks stream) (fun track =>
                do _ <- emit (TrackStop track);
                lift (trackStop env track));
      do _ <- modify (set_videoStream None);
      do _ <- updateVideo (fun v =>
                {| width := width v; height := height v;
                   srcObject := None;
                   playListeners := playListeners v; onended := onended v |});
      do _ <- cleanupCanvas;
      disposeFaceMatcher
  | None => ret tt
  end.

(** The body of the loop of [getLabeledFaceDescriptors] for one label;
    [descriptors] is the local map under construction. *)
Definition describeLabel (descriptors : JsMap (list Descriptor)) (label : string)
  : M (JsMap (list Descriptor)) :=
  do s <- get;
  if negb (map_has (labeledDescriptors s) label)
  then
    let imagePath := imagePathOf label in
    try_catch
      (do _ <- emit (FetchImage imagePath);
       do img <- lift (fetchImage env imagePath);
       do _ <- emit (DetectImage img);
       do detections <- lift (detectAllFaces env img);
       if Nat.ltb 0 (length detections)
       then ret (map_set descriptors label (map descriptor detections))
       else ret descriptors)
      (fun error =>
         do _ <- emit (ConsoleError (imageErrorText imagePath) [error]);
         ret descriptors)
  else ret descriptors.

Fixpoint describeLabels (labels : list string) (descriptors : JsMap (list Descriptor))
  : M (JsMap (list Descriptor)) :=
  match labels with
  | [] => ret descriptors
  | label :: rest =>
      do descriptors' <- describeLabel descriptors label;
      describeLabels rest descriptors'
  end.

(** [getLabeledFaceDescriptors(labels)] *)
Definition getLabeledFaceDescriptors (labels : list string)
  : M (JsMap (list Descriptor)) :=
  describeLabels labels [].

(** [setupFaceMatcher()] *)
Definition setupFaceMatcher : M unit :=
  do s <- get;
  match faceMatcher s with
  | Some _ => ret tt
  | None =>
      do _ <- (if Nat.eqb (map_size (labeledDescriptors s)) 0
               then
                 do gallery <- getLabeledFaceDescriptors (labels (config s));
                 modify (set_labeledDescriptors gallery)
               else ret tt);
      do s' <- get;
      let labeledDescriptorsArray :=
        map (fun entry => {| lfd_label := fst entry; lfd_descriptors := snd entry |})
            (labeledDescriptors s') in
      do matcher <- lift (FaceMatcher_new labeledDescriptorsArray);
      modify (set_faceMatcher (Some matcher))
  end.

(** [detection.expressions?.happy] *)
Definition happyScore (detection : FaceDescription) : JsNumber :=
  match expressions detection with
  | None => Undefined
  | Some scores =>
      match map_get scores "happy" with
      | Some x => Num x
      | None => Undefined
      end
  end.

(** The label computed in the loop of [updateCanvas] from the match and the
    detection. *)
Definition boxLabel (cfg : Config) (best : FaceMatch) (detection : FaceDescription)
  : string :=
  let isKnown := js_lt (distance best) (distanceThreshold cfg) in
  let isSmiling := js_gt (happyScore detection) (smileDetectionThreshold cfg) in
  if isKnown
  then (if isSmiling then "Known Smiling" else "Known Not Smiling")
  else (if isSmiling then "Unknown Smiling" else "Unknown Not Smiling").

(** [updateCanvas(detections)] *)
Definition updateCanvas (detections : list FaceDescription) : M unit :=
  do s <- get;
  match canvas s with
  | None => throw (TypeError "Cannot read properties of null (reading 'getContext')")
  | Some c =>
      do _ <- emit (ClearRect c);
      for_of detections (fun detection =>
        do s <- get;
        match faceMatcher s with
        | None =>
            throw (TypeError "Cannot read properties of null (reading 'findBestMatch')")
        | Some matcher =>
            let best := findBestMatch (descriptorDistance env) matcher
                          (descriptor detection) in
            emit (DrawBox c (detection_box detection)
                    (boxLabel (config s) best detection))
        end)
  end.

(** [requestAnimationFrame(() => this.processVideoFrames())] *)
Definition requestAnimationFrame : M unit :=
  do _ <- emit RequestAnimationFrame;
  modify (fun s => set_rafQueue (S (rafQueue s)) s).

(** [processVideoFrames()] up to its [await]: the answer tells whether a
    detection was started. *)
Definition processVideoFrames_start : M bool :=
  do s <- get;
  match videoElement s with
  | None => ret false
  | Some _ =>
      do _ <- emit (DetectVideo (minConfidenceThreshold (config s)));
      do _ <- modify (fun s => set_awaiting (S (awaiting s)) s);
      ret true
  end.

(** [processVideoFrames()] from its [await] on, given how the detection
    settled. *)
Definition processVideoFrames_resume (settled : result (list FaceDescription))
  : M unit :=
  do detections <- lift settled;
  do s <- get;
  let resizedDetections := resizeResults env detections (displaySize s) in
  do _ <- updateCanvas resizedDetections;
  requestAnimationFrame.

(** The handler that [startProcessing] registers for 'play'. *)
Definition playHandler : M unit :=
  do _ <- setupCanvas;
  do _ <- setupFaceMatcher;
  requestAnimationFrame.

(** [startProcessing()] *)
Definition startProcessing : M unit :=
  updateVideo (fun v =>
    {| width := width v; height := height v; srcObject := srcObject v;
       playListeners := S (playListeners v); onended := true |}).

(** [stopProcessing()].  The function handed to [removeEventListener] is a
    new closure, which was never registered: no listener goes away.  The
    promise of [stopWebcam()] is not awaited. *)
Definition stopProcessing : M unit :=
  do _ <- updateVideo (fun v => v);
  detached stopWebcam.

(** [initialize()] *)
Definition initialize : M unit :=
  try_catch
    (do s <- get;
     do _ <- loadModels (modelUri (config s));
     do _ <- setupWebcam;
     startProcessing)
    (fun error =>
       do _ <- emit (ConsoleError "Error during initialization: " [error]);
       throw error).

(** ** What the host does to the instance *)

Inductive action : Type :=
| Play                                              (* the video fires 'play' *)
| Ended                                             (* the video fires 'ended' *)
| Stop                                              (* a call of stopProcessing *)
| AnimationFrame                                    (* a queued callback runs *)
| Detected (settled : result (list FaceDescription)).  (* a detection settles *)

Fixpoint times (n : nat) (m : M unit) : M unit :=
  match n with
  | 0 => ret tt
  | S n' => do _ <- m; times n' m
  end.

Definition step (a : action) : M unit :=
  do s <- get;
  match a with
  | Play =>
      match videoElement s with
      | Some v => times (playListeners v) (detached playHandler)
      | None => ret tt
      end
  | Ended =>
      match videoElement s with
      | Some v => if onended v then detached stopProcessing else ret tt
      | None => ret tt
      end
  | Stop => detached stopProcessing
  | AnimationFrame =>
      match rafQueue s with
      | 0 => ret tt
      | S n =>
          do _ <- modify (set_rafQueue n);
          detached (do _ <- processVideoFrames_start; ret tt)
      end
  | Detected settled =>
      match awaiting s with
      | 0 => ret tt
      | S n =>
          do _ <- modify (set_awaiting n);
          detached (processVideoFrames_resume settled)
      end
  end.

(** The state after a computation, whatever it returned. *)
Definition exec {A} (m : M A) (s : State) : State := snd (m s).

Definition run (acts : list action) (s : State) : State :=
  fold_left (fun s a => exec (step a) s) acts s.

End FaceRecognition.

(** ** Observations on traces *)

Definition is_raf (e : event) : bool :=
  match e with RequestAnimationFrame => true | _ => false end.
Definition is_load (e : event) : bool :=
  match e with LoadFromUri _ _ => true | _ => false end.
Definition is_fetch (e : event) : bool :=
  match e with FetchImage _ => true | _ => false end.

(** The events a computation adds to the trace of [s]. *)
Definition emitted {A} (m : M A) (s : State) : list event :=
  drop (length (trace s)) (trace (exec m s)).

(** ** The classification as the specification words it *)

(** "known": the best-match distance is strictly less than
    [distanceThreshold]. *)
Definition known_by_spec (cfg : Config) (best : FaceMatch) : Prop :=
  PrimFloat.ltb (distance best) (distanceThreshold cfg) = true.

(** "smiling": the expression scores are present and the score of "happy"
    strictly exceeds [smileDetectionThreshold]. *)
Definition smiling_by_spec (cfg : Config) (detection : FaceDescription) : Prop :=
  exists scores h,
    expressions detection = Some scores /\
    map_get scores "happy" = Some h /\
    PrimFloat.ltb (smileDetectionThreshold cfg) h = true.

(** The call of [DrawBox] that [updateCanvas] makes for one detection. *)
Definition drawn (env : Env) (cfg : Config) (c : Canvas) (matcher : FaceMatcher)
    (detection : FaceDescription) : event :=
  DrawBox c (detection_box detection)
    (boxLabel cfg
       (findBestMatch (descriptorDistance env) matcher (descriptor detection))
       detection).

(** ** A concrete page, used to run the model *)

Fixpoint sumSquares (a b : Descriptor) : float :=
  match a, b with
  | x :: a', y :: b' => ((x - y) * (x - y) + sumSquares a' b')%float
  | _, _ => 0%float
  end.

Definition euclideanDistance (a b : Descriptor) : float :=
  PrimFloat.sqrt (sumSquares a b).

Definition demoConfig : Config :=
  {| modelUri := "/static/models";
     videoElementId := "video";
     labels := ["alice"; "bob"];
     minConfidenceThreshold := 0.6;
     distanceThreshold := 0.5;
     smileDetectionThreshold := 0.5 |}.

Definition demoVideo : VideoElement :=
  {| width := 600; height := 450; srcObject := None;
     playListeners := 0; onended := false |}.

Definition demoBox : Box := {| box_x := 0; box_y := 0; box_w := 1; box_h := 1 |}.

Definition face (d : Descriptor) (happy : option float) : FaceDescription :=
  {| detection_box := demoBox;
     descriptor := d;
     expressions :=
       match happy with
       | Some x => Some [("neutral", 0.05%float); ("happy", x)]
       | None => None
       end |}.

Definition aliceDescriptor : Descriptor := [0%float; 0%float].

(** alice.jpg shows one face, bob.jpg cannot be fetched, carol.jpg shows no
    face; every model loads and every track stops. *)
Definition demoEnv : Env :=
  {| loadFromUri := fun _ _ => Ok tt;
     fetchImage := fun path =>
       if String.eqb path "/static/labels/alice.jpg" then Ok "alice.jpg"
       else if String.eqb path "/static/labels/carol.jpg" then Ok "carol.jpg"
       else Throw (Error "404");
     detectAllFaces := fun img =>
       if String.eqb img "alice.jpg" then Ok [face aliceDescriptor None] else Ok [];
     getUserMedia := Ok {| getTracks := [0; 1] |};
     trackStop := fun _ => Ok tt;
     resizeResults := fun detections _ => detections;
     descriptorDistance := euclideanDistance |}.

Definition demoStart : State := FaceRecognition_new demoConfig (Some demoVideo).

(** ** Runs of the surface pool and of the model loader *)

(** The operations on the pool: the two methods that take a surface from it
    and the one that gives a surface back. *)
Inductive poolOp : Type :=
| SetupCanvas
| CreateCanvas
| CleanupCanvas.

Definition poolStep (op : poolOp) : M unit :=
  match op with
  | SetupCanvas => setupCanvas
  | CreateCanvas => createCanvas
  | CleanupCanvas => cleanupCanvas
  end.

Definition runPool (ops : list poolOp) (s : State) : State :=
  fold_left (fun s op => exec (poolStep op) s) ops s.

(** The invariant of the pool. *)
Definition poolBounded (s : State) : Prop :=
  maxCanvasPoolSize s = 10 /\ length (canvasPool s) <= 10.

(** What a caller that awaits [m] sees: the value or the rejection. *)
Definition observe {A} (m : M A) : M (result A) :=
  fun s => (Ok (fst (m s)), snd (m s)).

(** One call of [loadModels] per locator, in order; the answer lists what
    each caller observed. *)
Fixpoint loadEach (env : Env) (uris : list string) : M (list (result bool)) :=
  match uris with
  | [] => ret []
  | uri :: rest =>
      do seen <- observe (loadModels env uri);
      do others <- loadEach env rest;
      ret (seen :: others)
  end.

(** The calls of [loadFromUri] that one load sequence makes. *)
Definition loadSequence (uri : string) : list event :=
  map (fun n => LoadFromUri n uri) nets.

(** A host on which two of the four models cannot be loaded. *)
Definition offlineEnv : Env :=
  {| loadFromUri := fun n uri =>
       match n with
       | ssdMobilenetv1 | faceRecognitionNet => Ok tt
       | faceLandmark68Net => Throw (Error "landmarks: 404")
       | faceExpressionNet => Throw (Error "expressions: 404")
       end;
     fetchImage := fetchImage demoEnv;
     detectAllFaces := detectAllFaces demoEnv;
     getUserMedia := getUserMedia demoEnv;
     trackStop := trackStop demoEnv;
     resizeResults := resizeResults demoEnv;
     descriptorDistance := descriptorDistance demoEnv |}.

(** The console message of a failed load. *)
Definition loadLog (results : list (result unit)) : list event :=
  if existsb is_rejected results
  then [ConsoleError "Error loading models:" [Errors (omap reason results)]]
  else [].

(** ** The gallery build, read off the host *)

(** The set of keys of a map. *)
Definition keySet {V} (m : JsMap V) : gset string := list_to_set (map_keys m).

(** The descriptors that the reference image of a label yields: the image
    is fetched, analysed, and shows at least one face. *)
Definition labelDescriptors (env : Env) (label : string) : option (list Descriptor) :=
  match fetchImage env (imagePathOf label) with
  | Ok img =>
      match detectAllFaces env img with
      | Ok detections =>
          if Nat.ltb 0 (length detections)
          then Some (map descriptor detections)
          else None
      | Throw _ => None
      end
  | Throw _ => None
  end.

(** The error thrown while the reference image of a label is processed. *)
Definition labelError (env : Env) (label : string) : option JsError :=
  match fetchImage env (imagePathOf label) with
  | Ok img => reason (detectAllFaces env img)
  | Throw e => Some e
  end.

(** A label fails, in the words of the specification: its fetch fails, or
    its detection fails, or its image shows no face. *)
Definition fails_by_spec (env : Env) (label : string) : Prop :=
  (exists e, fetchImage env (imagePathOf label) = Throw e) \/
  (exists img, fetchImage env (imagePathOf label) = Ok img /\
     ((exists e, detectAllFaces env img = Throw e) \/
      detectAllFaces env img = Ok [])).

(** One pass of the loop of the build, as a function of the gallery
    [current] already held by the instance. *)
Definition addLabel (env : Env) (current : JsMap (list Descriptor))
    (acc : JsMap (list Descriptor)) (label : string) : JsMap (list Descriptor) :=
  if map_has current label then acc
  else match labelDescriptors env label with
       | Some ds => map_set acc label ds
       | None => acc
       end.

Definition labelEvents (env : Env) (current : JsMap (list Descriptor))
    (label : string) : list event :=
  if map_has current label then []
  else FetchImage (imagePathOf label)
       :: match fetchImage env (imagePathOf label) with
          | Throw e => [ConsoleError (imageErrorText (imagePathOf label)) [e]]
          | Ok img =>
              DetectImage img
              :: match detectAllFaces env img with
                 | Throw e => [ConsoleError (imageErrorText (imagePathOf label)) [e]]
                 | Ok _ => []
                 end
          end.

(** The console reports a failure for the image of [label]. *)
Definition logs_label (t : list event) (label : string) : Prop :=
  exists args, ConsoleError (imageErrorText (imagePathOf label)) args ∈ t.

(** The build of a gallery as the specification states it: it does not
    raise, every failing label is logged, and the keys of the result are
    the labels that do not fail. *)
Definition build_as_stated (env : Env) (L : list string) (s : State) : Prop :=
  forall F : gset string,
    (forall l, l ∈ F <-> l ∈ L /\ fails_by_spec env l) ->
    (exists g, fst (getLabeledFaceDescriptors env L s) = Ok g /\
               keySet g = list_to_set L ∖ F) /\
    (forall l, l ∈ F ->
       logs_label (emitted (getLabeledFaceDescriptors env L) s) l).

(** The array handed to [new faceapi.FaceMatcher] in [setupFaceMatcher]. *)
Definition labeledDescriptorsArray (gallery : JsMap (list Descriptor))
  : list LabeledFaceDescriptors :=
  map (fun entry => {| lfd_label := fst entry; lfd_descriptors := snd entry |})
      gallery.

(** The incremental build as the specification states it: a label already
    in the gallery is not fetched again and the gallery returned by the
    build still maps it to its descriptors. *)
Definition rebuild_as_stated (env : Env) (L : list string) (s : State) : Prop :=
  forall l ds,
    map_get (labeledDescriptors s) l = Some ds ->
    (FetchImage (imagePathOf l) ∉ emitted (getLabeledFaceDescriptors env L) s) /\
    (exists g, fst (getLabeledFaceDescriptors env L s) = Ok g /\
               map_get g l = Some ds).

(** The demo page once the video plays: models loaded, camera on, gallery
    built from alice.jpg, first frame requested. *)
Definition demoPlaying : State :=
  run demoEnv [Play] (exec (initialize demoEnv) demoStart).

(** A page whose labels all fail on the demo host. *)
Definition strangersConfig : Config :=
  {| modelUri := "/static/models";
     videoElementId := "video";
     labels := ["bob"; "carol"];
     minConfidenceThreshold := 0.6;
     distanceThreshold := 0.5;
     smileDetectionThreshold := 0.5 |}.

Definition strangersStart : State :=
  FaceRecognition_new strangersConfig (Some demoVideo).

(** ** Releasing the stream, as the specification states it *)

(** Releasing with an active stream stops every track, clears the handle,
    gives the surface in use back to the pool (one more surface, at most
    10), disposes the matcher, and the next [setupFaceMatcher] rebuilds the
    matcher from the gallery without fetching; releasing with no stream
    changes nothing. *)
Definition release_as_stated (env : Env) (s : State) : Prop :=
  (forall stream, videoStream s = Some stream ->
     let s' := exec (stopWebcam env) s in
     (forall t, t ∈ getTracks stream -> TrackStop t ∈ emitted (stopWebcam env) s) /\
     videoStream s' = None /\
     (forall c, canvas s = Some c ->
        length (canvasPool s') = Nat.min (S (length (canvasPool s))) 10) /\
     faceMatcher s' = None /\
     faceMatcher (exec (setupFaceMatcher env) s')
     = Some (labeledDescriptorsArray (labeledDescriptors s)) /\
     List.filter is_fetch (emitted (setupFaceMatcher env) s') = []) /\
  (videoStream s = None -> stopWebcam env s = (Ok tt, s)).

(** A host whose first track refuses to stop. *)
Definition stuckEnv : Env :=
  {| loadFromUri := loadFromUri demoEnv;
     fetchImage := fetchImage demoEnv;
     detectAllFaces := detectAllFaces demoEnv;
     getUserMedia := getUserMedia demoEnv;
     trackStop := fun t =>
       match t with
       | 0 => Throw (Error "InvalidStateError")
       | _ => Ok tt
       end;
     resizeResults := resizeResults demoEnv;
     descriptorDistance := descriptorDistance demoEnv |}.

(** The state after [cleanupCanvas] and after [disposeFaceMatcher]. *)
Definition released (s : State) : State :=
  match canvas s with
  | Some c =>
      if Nat.ltb (length (canvasPool s)) (maxCanvasPoolSize s)
      then set_canvas None (set_canvasPool (canvasPool s ++ [c]) s)
      else set_canvas None (set_trace (trace s ++ [Remove c]) s)
  | None => s
  end.

Definition disposed (s : State) : State :=
  match faceMatcher s with
  | Some _ => set_faceMatcher None (set_trace (trace s ++ [MatcherDispose]) s)
  | None => s
  end.

(** ** The frame loop, observed *)

(** The actions that belong to the frame loop. *)
Definition frameAction (a : action) : Prop :=
  match a with
  | AnimationFrame | Detected _ => True
  | _ => False
  end.

(** [k] rounds of the loop: a detection settles with [detections], then the
    callback it requested runs. *)
Definition frames (k : nat) (detections : list FaceDescription) : list action :=
  concat (replicate k [Detected (Ok detections); AnimationFrame]).

(** How often [requestAnimationFrame] was called. *)
Definition rafCount (t : list event) : nat := length (List.filter is_raf t).

(** A failing frame as the specification states it: the failure is logged
    and the next iteration is requested all the same. *)
Definition failure_contained (env : Env) (s : State) (e : JsError) : Prop :=
  (exists msg args,
     ConsoleError msg args ∈ emitted (step env (Detected (Throw e))) s) /\
  rafQueue (exec (step env (Detected (Throw e))) s) = S (rafQueue s).

(** A stop as the specification states it: whatever the loop does after
    [stopProcessing], it requests no further iteration. *)
Definition stop_halts_loop (env : Env) (s : State) : Prop :=
  forall acts, Forall frameAction acts ->
    rafCount (trace (run env (Stop :: acts) s)) = rafCount (trace s).

(** The demo page with models loaded and the camera on. *)
Definition demoReady : State := exec (initialize demoEnv) demoStart.

(** The demo page while its first frame is being analysed. *)
Definition demoAnalysing : State := run demoEnv [AnimationFrame] demoPlaying.

(** The demo page after a stop and a second 'play': the loop runs again,
    with no stream. *)
Definition demoRestarted : State :=
  run demoEnv [Play; AnimationFrame; Stop; Detected (Ok []); Play; AnimationFrame]
    demoReady.

(** The page of the strangers once its video plays: camera on, gallery
    empty. *)
Definition strangersPlaying : State :=
  run demoEnv [Play] (exec (initialize demoEnv) strangersStart).

(** ** Sessions: any use of an instance *)

(** A call of a method of the class by its user, or something the host
    does. *)
Inductive call : Type :=
| CallLoadModels (uri : string)
| CallInitialize
| CallSetupWebcam
| CallStopWebcam
| CallStartProcessing
| CallStopProcessing
| CallSetupCanvas
| CallCreateCanvas
| CallUpdateCanvasSize
| CallSetupFaceMatcher
| CallProcessVideoFrames
| CallUpdateCanvas (detections : list FaceDescription)
| CallGetLabeledFaceDescriptors (labels : list string)
| CallCleanupCanvas
| CallDisposeUnusedResources
| CallDisposeFaceMatcher
| Host (a : action).

Definition perform (env : Env) (c : call) : M unit :=
  match c with
  | CallLoadModels uri => do _ <- loadModels env uri; ret tt
  | CallInitialize => initialize env
  | CallSetupWebcam => setupWebcam env
  | CallStopWebcam => stopWebcam env
  | CallStartProcessing => startProcessing
  | CallStopProcessing => stopProcessing env
  | CallSetupCanvas => setupCanvas
  | CallCreateCanvas => createCanvas
  | CallUpdateCanvasSize => updateCanvasSize
  | CallSetupFaceMatcher => setupFaceMatcher env
  | CallProcessVideoFrames => do _ <- processVideoFrames_start; ret tt
  | CallUpdateCanvas detections => updateCanvas env detections
  | CallGetLabeledFaceDescriptors labels =>
      do _ <- getLabeledFaceDescriptors env labels; ret tt
  | CallCleanupCanvas => cleanupCanvas
  | CallDisposeUnusedResources => disposeUnusedResources
  | CallDisposeFaceMatcher => disposeFaceMatcher
  | Host a => step env a
  end.

(** The state after a sequence of calls; a call that throws leaves the state
    it reached. *)
Definition session (env : Env) (calls : list call) (s : State) : State :=
  fold_left (fun s c => exec (perform env c) s) calls s.

(** A computation keeps a property of the state, however it ends. *)
Definition preserves {A} (P : State -> Prop) (m : M A) : Prop :=
  forall s, P s -> P (snd (m s)).

(** The life of the drawing surface of an instance: none created yet, the
    one surface in use, or the one surface waiting in the pool; and the page
    never removed a surface. *)
Definition oneSurface (s : State) : Prop :=
  maxCanvasPoolSize s = 10 /\
  ((canvas s = None /\ canvasPool s = [] /\ nextElement s = 0) \/
   (canvas s = Some 0 /\ canvasPool s = [] /\ nextElement s = 1) \/
   (canvas s = None /\ canvasPool s = [0] /\ nextElement s = 1)) /\
  (forall c, Remove c ∉ trace s).

(** The video element of an instance is still there, with its size, at
    least the 'play' listeners of [v0], and the 'ended' handler of [v0]. *)
Definition videoKept (v0 : VideoElement) (s : State) : Prop :=
  exists v, videoElement s = Some v /\
            width v = width v0 /\ height v = height v0 /\
            playListeners v0 <= playListeners v /\
            (onended v0 = true -> onended v = true).


(** The promise of the models is [p] and no model was loaded beyond the
    loads of [t0]. *)
Definition modelsKept (p : result bool) (t0 : list event) (s : State) : Prop :=
  modelLoader s = Some p /\
  List.filter is_load (trace s) = List.filter is_load t0.




(** The video element shows the stream that the instance holds. *)
Definition streamShown (s : State) : Prop :=
  exists v, videoElement s = Some v /\ srcObject v = videoStream s.

(** ** The text comparison of the upload endpoint (pages/api/upload)

    Here the characters of a string matter, so a JavaScript string is the
    list of its UTF-16 code units; the regular expressions of these
    functions carry no [u] flag and work on code units. *)

Definition JsString : Type := list N.

(** [[a-zA-Z]] *)
Definition isAsciiLetter (u : N) : bool :=
  ((65 <=? u) && (u <=? 90) || (97 <=? u) && (u <=? 122))%N.

(** [\s], which is also what [trim] removes: the white space and line
    terminator code points of ECMAScript. *)
Definition isWhiteSpace (u : N) : bool :=
  ((9 <=? u) && (u <=? 13) || (u =? 32) || (u =? 160) || (u =? 5760)
   || (8192 <=? u) && (u <=? 8202) || (u =? 8232) || (u =? 8233)
   || (u =? 8239) || (u =? 8287) || (u =? 12288) || (u =? 65279))%N.

(** [word.replace(/[^a-zA-Z]/g, "")] *)
Definition removeNonAlphabetic (word : JsString) : JsString :=
  List.filter isAsciiLetter word.

(** [word.includes(symbol)] for a symbol of one code unit. *)
Definition includesUnit (word : JsString) (symbol : N) : bool :=
  existsb (N.eqb symbol) word.

(** The code unit of "&". *)
Definition ampersand : N := 38%N.

(** [filterWords(words)] *)
Definition filterWords (words : list JsString) : list JsString :=
  map removeNonAlphabetic
    (List.filter (fun word => negb (existsb (includesUnit word) [ampersand])) words).

(** [text.split(/\s+/)]: the pieces between maximal runs of white space,
    the piece before a leading run and the piece after a trailing run
    included.  [piece] is the current piece, reversed, and [skipping] tells
    that the previous code unit was white space. *)
Fixpoint splitPieces (piece : JsString) (skipping : bool) (text : JsString)
  : list JsString :=
  match text with
  | [] => [rev piece]
  | u :: rest =>
      if isWhiteSpace u
      then (if skipping then splitPieces [] true rest
            else rev piece :: splitPieces [] true rest)
      else splitPieces (u :: piece) false rest
  end.

Definition splitWhiteSpace (text : JsString) : list JsString :=
  splitPieces [] false text.

Fixpoint dropWhiteSpace (text : JsString) : JsString :=
  match text with
  | [] => []
  | u :: rest => if isWhiteSpace u then dropWhiteSpace rest else text
  end.

(** [word.trim()] *)
Definition trim (word : JsString) : JsString :=
  rev (dropWhiteSpace (rev (dropWhiteSpace word))).

(** [text.split(/\s+/).filter((word) => word.trim() !== "")] *)
Definition textWords (text : JsString) : list JsString :=
  List.filter (fun word => negb (bool_decide (trim word = [])))
    (splitWhiteSpace text).

(** [findCommonElements(textOne, textTwo)] *)
Definition findCommonElements (textOne textTwo : JsString) : list JsString :=
  let filteredWords1 := filterWords (textWords textOne) in
  let filteredWords2 := filterWords (textWords textTwo) in
  List.filter (fun word => bool_decide (word ∈ filteredWords2)) filteredWords1.

(** [[...new Set(words)]]: the first occurrence of every word, in order. *)
Fixpoint setOrder (seen : list JsString) (words : list JsString) : list JsString :=
  match words with
  | [] => []
  | word :: rest =>
      if bool_decide (word ∈ seen) then setOrder seen rest
      else word :: setOrder (word :: seen) rest
  end.




(** The code units of an ASCII text. *)
Definition units (text : string) : JsString :=
  map (fun b => N.of_nat (Ascii.nat_of_ascii b)) (String.list_ascii_of_string text).

(** ** Proofs *)

(** Running the monad's primitives. *)
Ltac mrun :=
  repeat (progress (unfold bind, theVideo, updateVideo, get, modify, emit, ret,
                      throw, lift, try_catch, detached; simpl)).

(** *** Equations of the monad *)

Lemma bind_ok {A B} (m : M A) (k : A -> M B) (s s' : State) (a : A) :
  m s = (Ok a, s') -> bind m k s = k a s'.
Proof. unfold bind. by intros ->. Qed.

Lemma bind_thrown {A B} (m : M A) (k : A -> M B) (s s' : State) (e : JsError) :
  m s = (Throw e, s') -> bind m k s = (Throw e, s').
Proof. unfold bind. by intros ->. Qed.

Lemma bind_get {B} (k : State -> M B) (s : State) : bind get k s = k s s.
Proof. done. Qed.

Lemma bind_modify {B} (f : State -> State) (k : unit -> M B) (s : State) :
  bind (modify f) k s = k tt (f s).
Proof. done. Qed.

Lemma bind_emit {B} (e : event) (k : unit -> M B) (s : State) :
  bind (emit e) k s = k tt (set_trace (trace s ++ [e]) s).
Proof. done. Qed.

Lemma bind_ret {A B} (a : A) (k : A -> M B) (s : State) : bind (ret a) k s = k a s.
Proof. done. Qed.

Lemma bind_lift_ok {A B} (a : A) (k : A -> M B) (s : State) :
  bind (lift (Ok a)) k s = k a s.
Proof. done. Qed.

Lemma theVideo_run (s : State) (v : VideoElement) :
  videoElement s = Some v -> theVideo s = (Ok v, s).
Proof. intros Hv. unfold theVideo. by rewrite bind_get, Hv. Qed.

Lemma updateVideo_run (f : VideoElement -> VideoElement) (s : State)
    (v : VideoElement) :
  videoElement s = Some v ->
  updateVideo f s = (Ok tt, set_videoElement (Some (f v)) s).
Proof.
  intros Hv. unfold updateVideo.
  by erewrite bind_ok by (by apply theVideo_run).
Qed.

(** *** Bookkeeping for the state record *)

Lemma set_trace_same (s : State) : set_trace (trace s) s = s.
Proof. by destruct s. Qed.

Lemma trace_set_trace (t : list event) (s : State) : trace (set_trace t s) = t.
Proof. done. Qed.

(** *** Labels drawn by [updateCanvas] *)

Lemma js_gt_happy_spec (cfg : Config) (detection : FaceDescription) :
  js_gt (happyScore detection) (smileDetectionThreshold cfg) = true
  <-> smiling_by_spec cfg detection.
Proof.
  unfold smiling_by_spec, happyScore, js_gt.
  destruct (expressions detection) as [scores|]; last first.
  { split; [done | by intros (? & ? & ? & _)]. }
  destruct (map_get scores "happy") as [h|] eqn:Hh.
  - split.
    + intros Hlt. by exists scores, h.
    + intros (scores' & h' & Hs & Hg & Hlt). congruence.
  - split; [done | intros (scores' & h' & Hs & Hg & _); congruence].
Qed.

Lemma for_of_draw (env : Env) (c : Canvas) (matcher : FaceMatcher)
    (detections : list FaceDescription) (s : State) :
  faceMatcher s = Some matcher ->
  for_of detections (fun detection =>
      do s <- get;
      match faceMatcher s with
      | None =>
          throw (TypeError "Cannot read properties of null (reading 'findBestMatch')")
      | Some matcher =>
          let best := findBestMatch (descriptorDistance env) matcher
                        (descriptor detection) in
          emit (DrawBox c (detection_box detection)
                  (boxLabel (config s) best detection))
      end) s
  = (Ok tt, set_trace (trace s ++ map (drawn env (config s) c matcher) detections) s).
Proof.
  revert s. induction detections as [|d ds IH]; intros s Hm; simpl.
  - by rewrite app_nil_r, set_trace_same.
  - unfold bind at 1. unfold bind at 1. simpl. rewrite Hm. simpl.
    rewrite IH by done. simpl.
    by rewrite <- app_assoc.
Qed.

Lemma updateCanvas_run (env : Env) (s : State) (c : Canvas)
    (matcher : FaceMatcher) (detections : list FaceDescription) :
  canvas s = Some c ->
  faceMatcher s = Some matcher ->
  updateCanvas env detections s
  = (Ok tt,
     set_trace (trace s ++ ClearRect c
                  :: map (drawn env (config s) c matcher) detections) s).
Proof.
  intros Hc Hm. unfold updateCanvas, bind at 1. simpl. rewrite Hc.
  unfold bind at 1. simpl.
  rewrite for_of_draw with (matcher := matcher) by done. simpl.
  by rewrite <- app_assoc.
Qed.

(** C1.  With a surface and a matcher in place, [updateCanvas] clears the
    surface and draws one box per detection, in order, and never throws.
    The label of each box is fixed by two independent tests: "known" holds
    exactly when the best-match distance is strictly below
    [distanceThreshold]; "smiling" holds exactly when the expression scores
    are present and their "happy" score is strictly above
    [smileDetectionThreshold], so absent scores give "not smiling".  Each of
    the four label strings stands for exactly one combination of the two. *)
Theorem updateCanvas_labels (env : Env) (s : State) (c : Canvas)
    (matcher : FaceMatcher) (detections : list FaceDescription) :
  canvas s = Some c ->
  faceMatcher s = Some matcher ->
  updateCanvas env detections s
  = (Ok tt,
     set_trace (trace s ++ ClearRect c
                  :: map (drawn env (config s) c matcher) detections) s)
  /\ forall (best : FaceMatch) (detection : FaceDescription),
      let lbl := boxLabel (config s) best detection in
      let known := known_by_spec (config s) best in
      let smiling := smiling_by_spec (config s) detection in
      (lbl = "Known Smiling" <-> known /\ smiling) /\
      (lbl = "Known Not Smiling" <-> known /\ ~ smiling) /\
      (lbl = "Unknown Smiling" <-> ~ known /\ smiling) /\
      (lbl = "Unknown Not Smiling" <-> ~ known /\ ~ smiling) /\
      (expressions detection = None -> ~ smiling).
Proof.
  intros Hc Hm. split.
  - by apply updateCanvas_run.
  - intros best detection lbl known smiling.
    subst lbl known smiling. unfold boxLabel, known_by_spec, js_lt.
    pose proof (js_gt_happy_spec (config s) detection) as Hsm.
    assert (expressions detection = None -> ~ smiling_by_spec (config s) detection)
      as Hnone by (intros Hn (? & ? & ? & _); congruence).
    destruct (PrimFloat.ltb (distance best) (distanceThreshold (config s)));
      destruct (js_gt (happyScore detection) (smileDetectionThreshold (config s)));
      repeat split; try assumption; intros;
      intuition (discriminate || congruence).
Qed.

Lemma updateCanvas_labels_witness :
  fst (updateCanvas demoEnv [face [0.6; 0]%float (Some 0.1%float)]
         (run demoEnv [Play] (exec (initialize demoEnv) demoStart)))
  = Ok tt.
Proof.
  pose proof (updateCanvas_labels demoEnv
                (run demoEnv [Play] (exec (initialize demoEnv) demoStart)) 0
                [{| lfd_label := "alice"; lfd_descriptors := [aliceDescriptor] |}]
                [face [0.6; 0]%float (Some 0.1%float)]
                eq_refl eq_refl) as [H _].
  rewrite H. reflexivity.
Defined.

(** Scenario A of the specification: bob.jpg cannot be fetched, so the
    gallery holds alice alone; a probe at distance 0.3 from her descriptor
    with a "happy" score of 0.9 is drawn as "Known Smiling". *)
Example scenario_A :
  labeledDescriptors demoPlaying = [("alice", [aliceDescriptor])]
  /\ emitted (updateCanvas demoEnv [face [0.3; 0]%float (Some 0.9%float)])
       demoPlaying
     = [ClearRect 0; DrawBox 0 demoBox "Known Smiling"].
Proof. split; reflexivity. Qed.

(** Scenario D: a probe at distance 0.6 with a "happy" score of 0.1 is drawn
    as "Unknown Not Smiling"; so is a probe without expression scores. *)
Example scenario_D :
  emitted (updateCanvas demoEnv [face [0.6; 0]%float (Some 0.1%float);
                                 face [0.6; 0]%float None])
    demoPlaying
  = [ClearRect 0; DrawBox 0 demoBox "Unknown Not Smiling";
     DrawBox 0 demoBox "Unknown Not Smiling"].
Proof. reflexivity. Qed.

(** *** The surface pool *)

Lemma array_pop_length {A} (a rest : list A) (x : A) :
  array_pop a = Some (x, rest) -> S (length rest) = length a.
Proof.
  unfold array_pop. destruct (last a) as [y|] eqn:Hl; [|done].
  intros [= -> <-].
  apply last_Some in Hl as [a' ->].
  rewrite removelast_last, length_app. simpl. lia.
Qed.

Lemma takeCanvas_pool (s : State) :
  maxCanvasPoolSize (exec takeCanvas s) = maxCanvasPoolSize s /\
  length (canvasPool (exec takeCanvas s)) <= length (canvasPool s) /\
  canvas (exec takeCanvas s) = canvas s /\
  videoElement (exec takeCanvas s) = videoElement s /\
  exists c, fst (takeCanvas s) = Ok c.
Proof.
  unfold exec, takeCanvas, bind, get. simpl.
  destruct (array_pop (canvasPool s)) as [[c rest]|] eqn:Hp; simpl.
  - apply array_pop_length in Hp. repeat split; try done; [lia | by exists c].
  - repeat split; try done. by eexists.
Qed.

Lemma setupCanvas_pool (s : State) :
  poolBounded s -> poolBounded (exec setupCanvas s).
Proof.
  intros [Hmax Hlen]. unfold exec, setupCanvas, bind at 1. simpl.
  destruct (canvas s); [done|].
  destruct (takeCanvas_pool s) as (Hm & Hl & _ & Hv & c & Hc).
  unfold exec in *. unfold bind at 1.
  destruct (takeCanvas s) as [[c'|e] s1]; simpl in *; [|done].
  mrun. rewrite Hv.
  destruct (videoElement s); simpl; split; simpl; lia.
Qed.

Lemma createCanvas_pool (s : State) :
  poolBounded s -> poolBounded (exec createCanvas s).
Proof.
  intros [Hmax Hlen]. unfold exec, createCanvas, bind at 1. simpl.
  destruct (canvas s); [done|].
  destruct (takeCanvas_pool s) as (Hm & Hl & _ & Hv & c & Hc).
  unfold exec in *. unfold bind at 1.
  destruct (takeCanvas s) as [[c'|e] s1]; simpl in *; [|done].
  split; simpl; lia.
Qed.

(** What [cleanupCanvas] does to a state holding a surface. *)
Lemma cleanupCanvas_holding (s : State) (c : Canvas) :
  canvas s = Some c ->
  cleanupCanvas s
  = (Ok tt,
     if Nat.ltb (length (canvasPool s)) (maxCanvasPoolSize s)
     then set_canvas None (set_canvasPool (canvasPool s ++ [c]) s)
     else set_canvas None (set_trace (trace s ++ [Remove c]) s)).
Proof.
  intros Hc. unfold cleanupCanvas, bind at 1. simpl. rewrite Hc.
  by destruct (Nat.ltb _ _).
Qed.

Lemma cleanupCanvas_idle (s : State) :
  canvas s = None -> cleanupCanvas s = (Ok tt, s).
Proof. intros Hc. unfold cleanupCanvas, bind. simpl. by rewrite Hc. Qed.

Lemma cleanupCanvas_run (s : State) : cleanupCanvas s = (Ok tt, released s).
Proof.
  unfold released. destruct (canvas s) as [c|] eqn:Hc.
  - by apply cleanupCanvas_holding.
  - by apply cleanupCanvas_idle.
Qed.

Lemma disposeFaceMatcher_run (s : State) :
  disposeFaceMatcher s = (Ok tt, disposed s).
Proof.
  unfold disposeFaceMatcher, disposed. rewrite bind_get.
  by destruct (faceMatcher s).
Qed.

Lemma cleanupCanvas_pool (s : State) :
  poolBounded s -> poolBounded (exec cleanupCanvas s).
Proof.
  intros [Hmax Hlen]. unfold exec.
  destruct (canvas s) as [c|] eqn:Hc.
  - rewrite (cleanupCanvas_holding s c Hc).
    destruct (Nat.ltb_spec (length (canvasPool s)) (maxCanvasPoolSize s));
      split; simpl; try done.
    rewrite length_app. simpl. lia.
  - by rewrite cleanupCanvas_idle.
Qed.

(** C8.  Starting from a pool of at most 10 surfaces (the pool of a new
    instance is empty), any finite sequence of [setupCanvas], [createCanvas]
    and [cleanupCanvas] leaves at most 10 surfaces in the pool.  Giving back
    the surface in use pushes it when the pool holds fewer than 10 and
    otherwise removes it from the page and leaves the pool as it was; in
    both cases the instance lets go of it. *)
Theorem canvasPool_bounded (ops : list poolOp) (s : State) :
  maxCanvasPoolSize s = 10 ->
  length (canvasPool s) <= 10 ->
  length (canvasPool (runPool ops s)) <= 10
  /\ forall c, canvas s = Some c ->
       canvas (exec cleanupCanvas s) = None /\
       (length (canvasPool s) < 10 ->
          canvasPool (exec cleanupCanvas s) = canvasPool s ++ [c] /\
          emitted cleanupCanvas s = []) /\
       (length (canvasPool s) = 10 ->
          canvasPool (exec cleanupCanvas s) = canvasPool s /\
          emitted cleanupCanvas s = [Remove c]).
Proof.
  intros Hmax Hlen. split.
  - assert (poolBounded (runPool ops s)) as [_ H]; [|done].
    assert (poolBounded s) as Hs by done. clear Hmax Hlen.
    revert s Hs. induction ops as [|op ops IH]; intros s Hs; [done|].
    simpl. apply IH.
    destruct op; simpl;
      auto using setupCanvas_pool, createCanvas_pool, cleanupCanvas_pool.
  - intros c Hc. unfold emitted, exec.
    rewrite (cleanupCanvas_holding s c Hc), Hmax.
    destruct (Nat.ltb_spec (length (canvasPool s)) 10); simpl.
    + split; [done|]. split; [|lia].
      intros _. by rewrite drop_all.
    + split; [done|]. split; [lia|].
      intros _. by rewrite drop_app_length.
Qed.

Lemma canvasPool_bounded_witness :
  length (canvasPool
            (runPool [SetupCanvas; CleanupCanvas; CreateCanvas; CleanupCanvas;
                      CleanupCanvas; SetupCanvas] demoStart)) <= 10.
Proof.
  apply (canvasPool_bounded
           [SetupCanvas; CleanupCanvas; CreateCanvas; CleanupCanvas;
            CleanupCanvas; SetupCanvas] demoStart); [reflexivity | simpl; lia].
Defined.

(** *** Loading the models *)

Lemma for_of_emit {A} (f : A -> event) (xs : list A) (s : State) :
  for_of xs (fun x => emit (f x)) s
  = (Ok tt, set_trace (trace s ++ map f xs) s).
Proof.
  revert s. induction xs as [|x xs IH]; intros s; simpl.
  - by rewrite app_nil_r, set_trace_same.
  - mrun. rewrite IH. simpl. by rewrite <- app_assoc.
Qed.

Lemma loadModels_first (env : Env) (uri : string) (s : State) :
  modelLoader s = None ->
  let results := map (fun n => loadFromUri env n uri) nets in
  loadModels env uri s
  = (modelsOutcome results,
     set_trace (trace s ++ loadSequence uri ++ loadLog results)
       (set_modelLoader (Some (modelsOutcome results)) s)).
Proof.
  intros Hnone results. unfold loadModels.
  rewrite bind_get, Hnone.
  erewrite bind_ok by apply for_of_emit.
  cbv zeta. fold results. rewrite bind_modify.
  unfold loadLog, lift. fold (loadSequence uri).
  destruct (existsb is_rejected results).
  - rewrite bind_emit. simpl. by rewrite <- app_assoc.
  - rewrite bind_ret. by rewrite app_nil_r.
Qed.

Lemma loadModels_cached (env : Env) (uri : string) (s : State) (p : result bool) :
  modelLoader s = Some p -> loadModels env uri s = (p, s).
Proof. intros Hp. unfold loadModels, bind, get, lift. by rewrite Hp. Qed.

Lemma loadEach_cached (env : Env) (uris : list string) (s : State) (p : result bool) :
  modelLoader s = Some p ->
  loadEach env uris s = (Ok (map (fun _ => p) uris), s).
Proof.
  intros Hp. induction uris as [|uri uris IH]; [done|].
  simpl. unfold bind at 1, observe.
  rewrite (loadModels_cached env uri s p Hp). simpl.
  unfold bind at 1. by rewrite IH.
Qed.

Lemma loadEach_first (env : Env) (uri : string) (uris : list string) (s : State) :
  modelLoader s = None ->
  let results := map (fun n => loadFromUri env n uri) nets in
  loadEach env (uri :: uris) s
  = (Ok (modelsOutcome results :: map (fun _ => modelsOutcome results) uris),
     set_trace (trace s ++ loadSequence uri ++ loadLog results)
       (set_modelLoader (Some (modelsOutcome results)) s)).
Proof.
  intros Hnone results. simpl. unfold bind at 1, observe.
  rewrite (loadModels_first env uri s Hnone). fold results. simpl.
  unfold bind at 1.
  by rewrite (loadEach_cached env uris _ (modelsOutcome results)).
Qed.

Lemma all_nets (n : Net) : n ∈ nets.
Proof. destruct n; unfold nets; set_solver. Qed.

Lemma modelsOutcome_ok (results : list (result unit)) :
  modelsOutcome results = Ok true <-> forall r, r ∈ results -> r = Ok tt.
Proof.
  unfold modelsOutcome.
  destruct (existsb is_rejected results) eqn:Hex.
  - split; [done|]. intros Hall.
    apply existsb_exists in Hex as (r & Hin & Hrej).
    apply list_elem_of_In in Hin. rewrite (Hall r Hin) in Hrej. done.
  - split; [|done]. intros _ r Hin.
    destruct r as [[]|e]; [done|].
    assert (existsb is_rejected results = true) as Habs; [|congruence].
    apply existsb_exists. exists (Throw e). split; [|done].
    by apply list_elem_of_In.
Qed.

Lemma reasons_complete (results : list (result unit)) (e : JsError) :
  e ∈ omap reason results <-> Throw e ∈ results.
Proof.
  rewrite list_elem_of_omap. split.
  - intros (r & Hin & Hr). destruct r; simplify_eq/=. done.
  - intros Hin. by exists (Throw e).
Qed.

Lemma loadSequence_loads (uri : string) (log : list event) :
  (forall e, e ∈ log -> is_load e = false) ->
  List.filter is_load (loadSequence uri ++ log) = loadSequence uri.
Proof.
  intros Hlog. rewrite List.filter_app.
  assert (List.filter is_load log = []) as ->.
  { induction log as [|e log IH]; [done|]. simpl.
    rewrite (Hlog e) by set_solver. apply IH. intros. apply Hlog. set_solver. }
  by rewrite app_nil_r.
Qed.

Lemma loadLog_no_load (results : list (result unit)) (e : event) :
  e ∈ loadLog results -> is_load e = false.
Proof.
  unfold loadLog. destruct (existsb is_rejected results); intros Hin.
  - by apply list_elem_of_singleton in Hin as ->.
  - by apply elem_of_nil in Hin.
Qed.

Lemma map_const_replicate {A B} (b : B) (a : A) (n : nat) :
  map (fun _ => b) (replicate n a) = replicate n b.
Proof. induction n; simpl; congruence. Qed.

(** C5.  Any number [n >= 1] of calls of [loadModels] with one locator,
    made on a page that has not loaded the models yet, runs the four
    [loadFromUri] calls exactly once; every caller observes the same
    outcome; that outcome is success exactly when each of the four models
    loads, and otherwise it is a rejection whose reason is the list of all
    the models' failures. *)
Theorem loadModels_shared (env : Env) (uri : string) (n : nat) (s : State) :
  modelLoader s = None ->
  1 <= n ->
  let results := map (fun net => loadFromUri env net uri) nets in
  let outcome := modelsOutcome results in
  fst (loadEach env (replicate n uri) s) = Ok (replicate n outcome)
  /\ List.filter is_load (emitted (loadEach env (replicate n uri)) s)
     = loadSequence uri
  /\ (outcome = Ok true <-> forall net, loadFromUri env net uri = Ok tt)
  /\ (outcome <> Ok true ->
       exists errs, outcome = Throw (Errors errs) /\
         forall e, e ∈ errs <-> exists net, loadFromUri env net uri = Throw e).
Proof.
  intros Hnone Hn results outcome.
  destruct n as [|n]; [lia|]. simpl replicate.
  unfold emitted, exec. rewrite (loadEach_first env uri _ s Hnone).
  fold results outcome. simpl.
  split; [|split; [|split]].
  - by rewrite map_const_replicate.
  - rewrite drop_app_length.
    apply loadSequence_loads, loadLog_no_load.
  - unfold outcome. rewrite modelsOutcome_ok. unfold results. split.
    + intros Hall net. apply Hall, list_elem_of_fmap. exists net.
      split; [done | apply all_nets].
    + intros Hall r (net & -> & _)%list_elem_of_fmap. apply Hall.
  - intros Hfail. exists (omap reason results). split.
    + unfold outcome, modelsOutcome in *.
      by destruct (existsb is_rejected results).
    + intros e. rewrite reasons_complete. unfold results.
      rewrite list_elem_of_fmap. split.
      * intros (net & Heq & _). by exists net.
      * intros (net & Heq). exists net. split; [done | apply all_nets].
Qed.

Lemma loadModels_shared_witness :
  fst (loadEach demoEnv (replicate 3 "/static/models") demoStart)
  = Ok (replicate 3 (Ok true)).
Proof.
  apply (loadModels_shared demoEnv "/static/models" 3 demoStart);
    [reflexivity | lia].
Defined.

(** C10.  The cache of [loadModels] does not look at the locator.  After a
    first call on a page that has not loaded the models, a call with any
    locator answers with the outcome of the first call and changes nothing:
    it starts no load.  Over any sequence of calls the only loads are the
    four of the first locator, and every caller, whatever its locator,
    observes the outcome of the first call, a failure included. *)
Theorem loadModels_ignores_locator (env : Env) (uri : string)
    (uris : list string) (s : State) :
  modelLoader s = None ->
  let outcome := modelsOutcome (map (fun net => loadFromUri env net uri) nets) in
  let s1 := exec (loadModels env uri) s in
  fst (loadModels env uri s) = outcome
  /\ modelLoader s1 = Some outcome
  /\ (forall uri', loadModels env uri' s1 = (outcome, s1))
  /\ fst (loadEach env (uri :: uris) s) = Ok (outcome :: map (fun _ => outcome) uris)
  /\ List.filter is_load (emitted (loadEach env (uri :: uris)) s) = loadSequence uri.
Proof.
  intros Hnone outcome s1. subst s1. unfold emitted, exec.
  rewrite (loadEach_first env uri uris s Hnone).
  rewrite (loadModels_first env uri s Hnone). fold outcome. cbn [fst snd].
  split; [done|]. split; [done|]. split; [|split; [done|]].
  - intros uri'. by apply loadModels_cached.
  - rewrite trace_set_trace, drop_app_length.
    apply loadSequence_loads, loadLog_no_load.
Qed.

Lemma loadModels_ignores_locator_witness :
  fst (loadEach offlineEnv ["/static/models"; "/other/models"; "/static/models"]
         demoStart)
  = Ok [Throw (Errors [Error "landmarks: 404"; Error "expressions: 404"]);
        Throw (Errors [Error "landmarks: 404"; Error "expressions: 404"]);
        Throw (Errors [Error "landmarks: 404"; Error "expressions: 404"])].
Proof.
  apply (loadModels_ignores_locator offlineEnv "/static/models"
           ["/other/models"; "/static/models"] demoStart).
  reflexivity.
Defined.

(** *** Building the gallery *)

Lemma describeLabel_run (env : Env) (acc : JsMap (list Descriptor))
    (label : string) (s : State) :
  describeLabel env acc label s
  = (Ok (addLabel env (labeledDescriptors s) acc label),
     set_trace (trace s ++ labelEvents env (labeledDescriptors s) label) s).
Proof.
  unfold describeLabel. rewrite bind_get.
  unfold addLabel, labelEvents, labelDescriptors.
  destruct (map_has (labeledDescriptors s) label); simpl.
  { by rewrite app_nil_r, set_trace_same. }
  unfold try_catch. rewrite bind_emit. unfold bind at 1, lift.
  destruct (fetchImage env (imagePathOf label)) as [img|e].
  - rewrite bind_emit. unfold bind at 1.
    destruct (detectAllFaces env img) as [detections|e].
    + destruct (Nat.ltb 0 (length detections));
        unfold ret; simpl; by rewrite <- app_assoc.
    + rewrite bind_emit. unfold ret. simpl. by rewrite <- !app_assoc.
  - rewrite bind_emit. unfold ret. simpl. by rewrite <- app_assoc.
Qed.

Lemma describeLabels_run (env : Env) (L : list string) :
  forall (acc : JsMap (list Descriptor)) (s : State),
    describeLabels env L acc s
    = (Ok (fold_left (addLabel env (labeledDescriptors s)) L acc),
       set_trace (trace s ++ flat_map (labelEvents env (labeledDescriptors s)) L) s).
Proof.
  induction L as [|l L IH]; intros acc s; simpl.
  - unfold ret. by rewrite app_nil_r, set_trace_same.
  - erewrite bind_ok by apply describeLabel_run.
    rewrite IH. simpl. by rewrite <- app_assoc.
Qed.

(** The build never throws and touches nothing but the trace. *)
Lemma getLabeledFaceDescriptors_run (env : Env) (L : list string) (s : State) :
  getLabeledFaceDescriptors env L s
  = (Ok (fold_left (addLabel env (labeledDescriptors s)) L []),
     set_trace (trace s ++ flat_map (labelEvents env (labeledDescriptors s)) L) s).
Proof. apply describeLabels_run. Qed.

Lemma emitted_build (env : Env) (L : list string) (s : State) :
  emitted (getLabeledFaceDescriptors env L) s
  = flat_map (labelEvents env (labeledDescriptors s)) L.
Proof.
  unfold emitted, exec. rewrite getLabeledFaceDescriptors_run. cbn [snd].
  by rewrite trace_set_trace, drop_app_length.
Qed.

Lemma map_keys_set {V} (m : JsMap V) (k k' : string) (v : V) :
  k' ∈ map_keys (map_set m k v) <-> k' = k \/ k' ∈ map_keys m.
Proof.
  induction m as [|[k0 v0] m IH]; simpl.
  - set_solver.
  - destruct (String.eqb_spec k0 k) as [->|Hne]; simpl; [set_solver|].
    rewrite !elem_of_cons, IH. tauto.
Qed.

Lemma map_has_keys {V} (m : JsMap V) (k : string) :
  map_has m k = true <-> k ∈ map_keys m.
Proof.
  induction m as [|[k0 v0] m IH]; simpl.
  - split; [done | by intros ?%elem_of_nil].
  - destruct (String.eqb_spec k0 k) as [->|Hne]; [set_solver|].
    rewrite elem_of_cons, IH. split; [tauto|]. intros [->|]; done.
Qed.

Lemma fold_addLabel_keys (env : Env) (current : JsMap (list Descriptor))
    (L : list string) :
  forall (acc : JsMap (list Descriptor)) (l : string),
    l ∈ map_keys (fold_left (addLabel env current) L acc)
    <-> l ∈ map_keys acc \/
        (l ∈ L /\ map_has current l = false /\ is_Some (labelDescriptors env l)).
Proof.
  induction L as [|l0 L IH]; intros acc l; simpl.
  - split; [tauto|]. intros [?|[?%elem_of_nil _]]; done.
  - rewrite IH, elem_of_cons. unfold addLabel.
    clear IH.
    destruct (map_has current l0) eqn:Hhas.
    { split; [tauto|]. intros [?|[[->|?] [? ?]]]; [tauto|congruence|tauto]. }
    destruct (labelDescriptors env l0) as [ds|] eqn:Hds.
    + rewrite map_keys_set. split.
      * intros [[->|?]|?]; [|tauto|tauto]. right. rewrite Hds. eauto.
      * intros [?|[[->|?] ?]]; tauto.
    + split; [tauto|].
      intros [?|[[->|?] [? Hsome]]]; [tauto| |tauto].
      rewrite Hds in Hsome. by destruct Hsome.
Qed.

Lemma labelDescriptors_fails (env : Env) (l : string) :
  labelDescriptors env l = None <-> fails_by_spec env l.
Proof.
  unfold labelDescriptors, fails_by_spec.
  destruct (fetchImage env (imagePathOf l)) as [img|e].
  - destruct (detectAllFaces env img) as [[|d ds]|e] eqn:Hd; simpl.
    + split; [|done]. intros _. right. exists img. auto.
    + split; [done|]. intros [[e [=]]|(img' & [= <-] & [[e He]|He])]; congruence.
    + split; [|done]. intros _. right. exists img. eauto.
  - split; [|done]. intros _. left. eauto.
Qed.

Lemma append_cons (c : Ascii.ascii) (a b : string) :
  String c a +:+ b = String c (a +:+ b).
Proof. done. Qed.

Lemma length_append (a b : string) :
  String.length (a +:+ b) = String.length a + String.length b.
Proof.
  induction a as [|c a IH]; [done|].
  rewrite append_cons. simpl. by rewrite IH.
Qed.

Lemma append_suffix_inj (suffix a b : string) :
  a +:+ suffix = b +:+ suffix -> a = b.
Proof.
  revert b. induction a as [|c a IH]; intros [|c' b] Heq; [done| | |].
  - apply (f_equal String.length) in Heq.
    rewrite !length_append in Heq. simpl in Heq. lia.
  - apply (f_equal String.length) in Heq.
    rewrite !length_append in Heq. simpl in Heq. lia.
  - rewrite !append_cons in Heq. injection Heq as -> Heq.
    f_equal. by apply IH.
Qed.

Lemma imagePathOf_inj (l l' : string) : imagePathOf l = imagePathOf l' -> l = l'.
Proof.
  unfold imagePathOf. intros Heq%String.app_inj. by apply append_suffix_inj in Heq.
Qed.

Lemma imageErrorText_inj (p p' : string) :
  imageErrorText p = imageErrorText p' -> p = p'.
Proof.
  unfold imageErrorText. intros Heq%String.app_inj. by apply append_suffix_inj in Heq.
Qed.

Lemma labelEvents_log (env : Env) (current : JsMap (list Descriptor))
    (l : string) (msg : string) (args : list JsError) :
  ConsoleError msg args ∈ labelEvents env current l
  <-> map_has current l = false /\
      exists e, labelError env l = Some e /\
                msg = imageErrorText (imagePathOf l) /\ args = [e].
Proof.
  unfold labelEvents, labelError.
  destruct (map_has current l).
  { split; [by intros ?%elem_of_nil | by intros [? _]]. }
  destruct (fetchImage env (imagePathOf l)) as [img|e].
  - destruct (detectAllFaces env img) as [ds|e]; simpl.
    + rewrite !elem_of_cons, elem_of_nil. split; [|by intros (_ & ? & ? & _)].
      intros [?|[?|?]]; done.
    + rewrite !elem_of_cons, elem_of_nil. split.
      * intros [?|[?|[[= -> ->]|?]]]; try done. eauto.
      * intros (_ & e' & [= <-] & -> & ->). auto.
  - rewrite !elem_of_cons, elem_of_nil. split.
    + intros [?|[[= -> ->]|?]]; try done. eauto.
    + intros (_ & e' & [= <-] & -> & ->). auto.
Qed.

Lemma logs_label_build (env : Env) (current : JsMap (list Descriptor))
    (L : list string) (l : string) :
  logs_label (flat_map (labelEvents env current) L) l
  <-> l ∈ L /\ map_has current l = false /\ is_Some (labelError env l).
Proof.
  unfold logs_label. split.
  - intros (args & Hin). apply list_elem_of_In, in_flat_map in Hin as (l' & Hl' & Hin).
    apply list_elem_of_In, labelEvents_log in Hin as (Hhas & e & He & Heq & _).
    apply imageErrorText_inj, imagePathOf_inj in Heq as ->.
    split; [by apply list_elem_of_In|]. split; [done | by exists e].
  - intros (Hin & Hhas & e & He). exists [e].
    apply list_elem_of_In, in_flat_map. exists l. split; [by apply list_elem_of_In|].
    apply list_elem_of_In, labelEvents_log. split; [done|]. by exists e.
Qed.

Lemma fetches_build (env : Env) (current : JsMap (list Descriptor))
    (L : list string) (l : string) :
  FetchImage (imagePathOf l) ∈ flat_map (labelEvents env current) L
  <-> l ∈ L /\ map_has current l = false.
Proof.
  split.
  - intros Hin. apply list_elem_of_In, in_flat_map in Hin as (l' & Hl' & Hin).
    apply list_elem_of_In in Hin, Hl'. unfold labelEvents in Hin.
    destruct (map_has current l') eqn:Hhas; [by apply elem_of_nil in Hin|].
    apply elem_of_cons in Hin as [Heq|Hin].
    + assert (imagePathOf l = imagePathOf l') as Hp by congruence.
      by apply imagePathOf_inj in Hp as ->.
    + destruct (fetchImage env (imagePathOf l')) as [img|e].
      * apply elem_of_cons in Hin as [?|Hin]; [done|].
        destruct (detectAllFaces env img);
          [by apply elem_of_nil in Hin|].
        by apply list_elem_of_singleton in Hin.
      * by apply list_elem_of_singleton in Hin.
  - intros [Hin Hhas]. apply list_elem_of_In, in_flat_map. exists l.
    split; [by apply list_elem_of_In|]. unfold labelEvents. rewrite Hhas.
    apply in_eq.
Qed.

(** C6.  Built on an instance whose gallery is empty, the gallery never
    raises and changes nothing but the trace; the keys of the map it
    returns are exactly the labels of [L] that do not fail, where a label
    fails when its fetch throws, its detection throws, or its image shows no
    face.  The console reports exactly the labels whose fetch or detection
    throws: a label whose image shows no face is left out without any
    report. *)
Theorem getLabeledFaceDescriptors_complete (env : Env) (L : list string)
    (s : State) (F : gset string) :
  labeledDescriptors s = [] ->
  (forall l, l ∈ F <-> l ∈ L /\ fails_by_spec env l) ->
  exists g,
    getLabeledFaceDescriptors env L s
    = (Ok g,
       set_trace (trace s ++ emitted (getLabeledFaceDescriptors env L) s) s)
    /\ keySet g = list_to_set L ∖ F
    /\ (forall l, logs_label (emitted (getLabeledFaceDescriptors env L) s) l
                  <-> l ∈ L /\ is_Some (labelError env l))
    /\ (forall l img, l ∈ L ->
          fetchImage env (imagePathOf l) = Ok img ->
          detectAllFaces env img = Ok [] ->
          l ∈ F /\ ~ logs_label (emitted (getLabeledFaceDescriptors env L) s) l).
Proof.
  intros Hempty HF.
  assert (forall l, logs_label (emitted (getLabeledFaceDescriptors env L) s) l
                    <-> l ∈ L /\ is_Some (labelError env l)) as Hlogs.
  { intros l. rewrite emitted_build, logs_label_build, Hempty. simpl. tauto. }
  exists (fold_left (addLabel env []) L []).
  split; [|split; [|split]].
  - rewrite emitted_build, getLabeledFaceDescriptors_run. by rewrite Hempty.
  - apply set_eq. intros l. unfold keySet.
    rewrite elem_of_list_to_set, fold_addLabel_keys, elem_of_difference,
      elem_of_list_to_set, HF, <- labelDescriptors_fails.
    simpl. rewrite elem_of_nil, <- not_eq_None_Some. tauto.
  - done.
  - intros l img Hin Hfetch Hdetect. split.
    + apply HF. split; [done|]. right. exists img. auto.
    + rewrite Hlogs. unfold labelError. rewrite Hfetch, Hdetect. simpl.
      intros [_ [e [=]]].
Qed.

Lemma demo_failures (l : string) :
  l ∈ ({["bob"; "carol"]} : gset string)
  <-> l ∈ ["alice"; "bob"; "carol"] /\ fails_by_spec demoEnv l.
Proof.
  rewrite <- labelDescriptors_fails, !elem_of_cons, elem_of_nil.
  rewrite elem_of_union, !elem_of_singleton.
  split.
  - intros [->| ->]; auto.
  - intros [[->|[->|[->|[]]]] Hnone]; auto. by vm_compute in Hnone.
Qed.

Lemma getLabeledFaceDescriptors_complete_witness :
  exists g,
    fst (getLabeledFaceDescriptors demoEnv ["alice"; "bob"; "carol"] demoStart) = Ok g
    /\ keySet g = list_to_set ["alice"; "bob"; "carol"] ∖ {["bob"; "carol"]}.
Proof.
  destruct (getLabeledFaceDescriptors_complete demoEnv ["alice"; "bob"; "carol"]
              demoStart {["bob"; "carol"]} eq_refl demo_failures)
    as (g & Hrun & Hkeys & _).
  exists g. split; [by rewrite Hrun | exact Hkeys].
Defined.

(** The statement of C6 with "each failing label is logged" fails on the
    demo host: carol.jpg is fetched and shows no face, so carol fails, yet
    the build reports nothing for it. *)
Lemma build_as_stated_fails :
  ~ build_as_stated demoEnv ["carol"] demoStart.
Proof.
  intros Hstated.
  destruct (Hstated {["carol"]}) as [_ Hlog].
  { intros l. rewrite <- labelDescriptors_fails, elem_of_singleton,
      list_elem_of_singleton.
    split; [by intros -> | tauto]. }
  destruct (Hlog "carol") as [args Hin]; [by apply elem_of_singleton|].
  rewrite emitted_build in Hin.
  change (flat_map (labelEvents demoEnv (labeledDescriptors demoStart)) ["carol"])
    with [FetchImage (imagePathOf "carol"); DetectImage "carol.jpg"] in Hin.
  rewrite !elem_of_cons, elem_of_nil in Hin.
  destruct Hin as [?|[?|?]]; done.
Qed.

(** *** The matcher *)

Lemma setupFaceMatcher_ready (env : Env) (s : State) (m : FaceMatcher) :
  faceMatcher s = Some m -> setupFaceMatcher env s = (Ok tt, s).
Proof. intros Hm. unfold setupFaceMatcher. by rewrite bind_get, Hm. Qed.

(** With a gallery at hand the matcher is built from it and nothing is
    fetched. *)
Lemma setupFaceMatcher_from_gallery (env : Env) (s : State) :
  faceMatcher s = None ->
  labeledDescriptors s <> [] ->
  setupFaceMatcher env s
  = (Ok tt,
     set_faceMatcher (Some (labeledDescriptorsArray (labeledDescriptors s))) s).
Proof.
  intros Hm Hg. unfold setupFaceMatcher. rewrite bind_get, Hm.
  unfold map_size. destruct (labeledDescriptors s) eqn:Hl; [done|].
  simpl Nat.eqb. cbv iota. rewrite bind_ret, bind_get.
  unfold FaceMatcher_new, lift, bind, modify, labeledDescriptorsArray.
  by rewrite Hl.
Qed.

(** With an empty gallery the labels of the configuration are processed
    first. *)
Lemma setupFaceMatcher_builds (env : Env) (s : State) :
  faceMatcher s = None ->
  labeledDescriptors s = [] ->
  let gallery := fold_left (addLabel env []) (labels (config s)) [] in
  setupFaceMatcher env s
  = (Ok tt,
     set_faceMatcher (Some (labeledDescriptorsArray gallery))
       (set_labeledDescriptors gallery
          (set_trace (trace s ++ flat_map (labelEvents env []) (labels (config s)))
             s))).
Proof.
  intros Hm Hg gallery. unfold setupFaceMatcher. rewrite bind_get, Hm, Hg.
  simpl Nat.eqb. cbv iota.
  unfold bind at 1. unfold bind at 1.
  rewrite getLabeledFaceDescriptors_run, Hg. fold gallery.
  by unfold modify, bind, get, lift, FaceMatcher_new.
Qed.

Lemma fold_addLabel_all_fail (env : Env) (current : JsMap (list Descriptor))
    (L : list string) (acc : JsMap (list Descriptor)) :
  (forall l, l ∈ L -> fails_by_spec env l) ->
  fold_left (addLabel env current) L acc = acc.
Proof.
  revert acc. induction L as [|l L IH]; intros acc Hfail; [done|].
  simpl. unfold addLabel at 2.
  assert (labelDescriptors env l = None) as ->.
  { apply labelDescriptors_fails, Hfail. by left. }
  destruct (map_has current l); apply IH; intros; apply Hfail; by right.
Qed.

(** C4.  When the gallery is empty and stays empty (every configured label
    fails), [setupFaceMatcher] does not throw, hands the empty array to the
    matcher's constructor, which accepts it, and stores the matcher; asked
    about any probe descriptor, under any distance, that matcher answers
    "unknown". *)
Theorem setupFaceMatcher_empty_gallery (env : Env) (s : State) :
  faceMatcher s = None ->
  labeledDescriptors s = [] ->
  (forall l, l ∈ labels (config s) -> fails_by_spec env l) ->
  fst (setupFaceMatcher env s) = Ok tt
  /\ labeledDescriptors (exec (setupFaceMatcher env) s) = []
  /\ exists m,
       FaceMatcher_new (labeledDescriptorsArray []) = Ok m
       /\ faceMatcher (exec (setupFaceMatcher env) s) = Some m
       /\ forall dist probe, label (findBestMatch dist m probe) = "unknown".
Proof.
  intros Hm Hg Hfail. unfold exec.
  rewrite (setupFaceMatcher_builds env s Hm Hg).
  rewrite (fold_addLabel_all_fail env [] _ [] Hfail). simpl.
  split; [done|]. split; [done|]. by exists [].
Qed.

Lemma strangers_fail (l : string) :
  l ∈ labels (config strangersStart) -> fails_by_spec demoEnv l.
Proof.
  rewrite <- labelDescriptors_fails. simpl.
  rewrite !elem_of_cons, elem_of_nil. by intros [->|[->|[]]].
Qed.

Lemma setupFaceMatcher_empty_gallery_witness :
  fst (setupFaceMatcher demoEnv strangersStart) = Ok tt
  /\ labeledDescriptors (exec (setupFaceMatcher demoEnv) strangersStart) = [].
Proof.
  destruct (setupFaceMatcher_empty_gallery demoEnv strangersStart
              eq_refl eq_refl strangers_fail) as (Hok & Hgallery & _).
  split; [exact Hok | exact Hgallery].
Defined.

(** *** Labels already in the gallery *)

(** C7.  A label already in the gallery of the instance is not fetched by
    a build, and the build leaves the gallery of the instance as it is; but
    the map returned by the build holds only labels processed by this build,
    so it does not contain that label.  [setupFaceMatcher], the caller of
    the build, runs it only on an empty gallery: with such a label in the
    gallery it fetches nothing and keeps the gallery unchanged. *)
Theorem getLabeledFaceDescriptors_skips_present (env : Env) (L : list string)
    (s : State) (l : string) :
  map_has (labeledDescriptors s) l = true ->
  (FetchImage (imagePathOf l) ∉ emitted (getLabeledFaceDescriptors env L) s)
  /\ labeledDescriptors (exec (getLabeledFaceDescriptors env L) s)
     = labeledDescriptors s
  /\ (exists g, fst (getLabeledFaceDescriptors env L s) = Ok g /\
                map_has g l = false)
  /\ fst (setupFaceMatcher env s) = Ok tt
  /\ labeledDescriptors (exec (setupFaceMatcher env) s) = labeledDescriptors s
  /\ emitted (setupFaceMatcher env) s = [].
Proof.
  intros Hhas. split; [|split; [|split]].
  - rewrite emitted_build, fetches_build. intros [_ ?]. congruence.
  - unfold exec. by rewrite getLabeledFaceDescriptors_run.
  - rewrite getLabeledFaceDescriptors_run. eexists. split; [done|].
    apply not_true_is_false. rewrite map_has_keys, fold_addLabel_keys.
    intros [?%elem_of_nil|(_ & ? & _)]; [done|congruence].
  - assert (labeledDescriptors s <> []) as Hne.
    { intros Heq. by rewrite Heq in Hhas. }
    unfold emitted, exec. destruct (faceMatcher s) as [m|] eqn:Hm.
    + rewrite (setupFaceMatcher_ready env s m Hm). simpl.
      by rewrite drop_all.
    + rewrite (setupFaceMatcher_from_gallery env s Hm Hne). simpl.
      by rewrite drop_all.
Qed.

Lemma getLabeledFaceDescriptors_skips_present_witness :
  FetchImage (imagePathOf "alice")
    ∉ emitted (getLabeledFaceDescriptors demoEnv ["alice"; "bob"]) demoPlaying.
Proof.
  apply (getLabeledFaceDescriptors_skips_present demoEnv ["alice"; "bob"]
           demoPlaying "alice").
  reflexivity.
Defined.

(** The statement of C7 fails on the demo page: alice is in the gallery,
    and a build over alice and bob returns a map without alice. *)
Lemma rebuild_as_stated_fails :
  ~ rebuild_as_stated demoEnv ["alice"; "bob"] demoPlaying.
Proof.
  intros Hstated.
  destruct (Hstated "alice" [aliceDescriptor] eq_refl) as (_ & g & Hg & Hget).
  assert (fst (getLabeledFaceDescriptors demoEnv ["alice"; "bob"] demoPlaying)
          = Ok []) as Hrun by reflexivity.
  rewrite Hrun in Hg. injection Hg as <-. discriminate Hget.
Qed.

(** *** Releasing the stream *)

Lemma stop_tracks_ok (env : Env) (tracks : list Track) (s : State) :
  (forall t, t ∈ tracks -> trackStop env t = Ok tt) ->
  for_of tracks (fun track => do _ <- emit (TrackStop track);
                              lift (trackStop env track)) s
  = (Ok tt, set_trace (trace s ++ map TrackStop tracks) s).
Proof.
  revert s. induction tracks as [|t tracks IH]; intros s Hok; simpl.
  - unfold ret. by rewrite app_nil_r, set_trace_same.
  - unfold bind at 1. rewrite bind_emit. unfold lift.
    rewrite (Hok t) by (by left).
    rewrite IH by (intros; apply Hok; by right).
    simpl. by rewrite <- app_assoc.
Qed.

Lemma stopWebcam_idle (env : Env) (s : State) :
  videoStream s = None -> stopWebcam env s = (Ok tt, s).
Proof. intros Hs. unfold stopWebcam. by rewrite bind_get, Hs. Qed.

(** The state in which [stopWebcam] leaves an instance whose tracks all
    stop. *)
Lemma stopWebcam_run (env : Env) (s : State) (stream : MediaStream)
    (v : VideoElement) :
  videoStream s = Some stream ->
  videoElement s = Some v ->
  (forall t, t ∈ getTracks stream -> trackStop env t = Ok tt) ->
  stopWebcam env s
  = (Ok tt,
     disposed (released
       (set_videoElement
          (Some {| width := width v; height := height v; srcObject := None;
                   playListeners := playListeners v; onended := onended v |})
          (set_videoStream None
             (set_trace (trace s ++ map TrackStop (getTracks stream)) s))))).
Proof.
  intros Hs Hv Hok. unfold stopWebcam. rewrite bind_get, Hs.
  erewrite bind_ok by (by apply stop_tracks_ok).
  rewrite bind_modify.
  erewrite bind_ok by (apply updateVideo_run; exact Hv).
  erewrite bind_ok by apply cleanupCanvas_run.
  apply disposeFaceMatcher_run.
Qed.

Lemma released_trace (s : State) :
  exists extra, trace (released s) = trace s ++ extra.
Proof.
  unfold released. destruct (canvas s); [destruct (Nat.ltb _ _)|]; simpl.
  - exists []. by rewrite app_nil_r.
  - by eexists.
  - exists []. by rewrite app_nil_r.
Qed.

Lemma disposed_trace (s : State) :
  exists extra, trace (disposed s) = trace s ++ extra.
Proof.
  unfold disposed. destruct (faceMatcher s); simpl.
  - by eexists.
  - exists []. by rewrite app_nil_r.
Qed.

Lemma released_fields (s : State) :
  canvas (released s) = None /\
  faceMatcher (released s) = faceMatcher s /\
  labeledDescriptors (released s) = labeledDescriptors s /\
  videoStream (released s) = videoStream s /\
  videoElement (released s) = videoElement s.
Proof.
  unfold released. destruct (canvas s) eqn:Hc; [destruct (Nat.ltb _ _)|]; done.
Qed.

Lemma disposed_fields (s : State) :
  faceMatcher (disposed s) = None /\
  canvas (disposed s) = canvas s /\
  canvasPool (disposed s) = canvasPool s /\
  labeledDescriptors (disposed s) = labeledDescriptors s /\
  videoStream (disposed s) = videoStream s /\
  videoElement (disposed s) = videoElement s.
Proof. unfold disposed. destruct (faceMatcher s) eqn:Hm; done. Qed.

(** C9.  On an instance with an active stream whose tracks all stop,
    [stopWebcam] calls [stop] on every track, clears the stream handle and
    [srcObject], lets go of the surface in use, giving it back to the pool
    (one more surface when the pool holds fewer than 10, otherwise the pool
    keeps its 10), and disposes the matcher, leaving the gallery as it is.
    The next [setupFaceMatcher] then builds the matcher from that gallery
    and fetches nothing, provided the gallery is not empty.  With no active
    stream [stopWebcam] changes nothing. *)
Theorem stopWebcam_releases (env : Env) (s : State) (stream : MediaStream)
    (v : VideoElement) :
  videoStream s = Some stream ->
  videoElement s = Some v ->
  maxCanvasPoolSize s = 10 ->
  length (canvasPool s) <= 10 ->
  (forall t, t ∈ getTracks stream -> trackStop env t = Ok tt) ->
  let s' := exec (stopWebcam env) s in
  fst (stopWebcam env s) = Ok tt
  /\ (forall t, t ∈ getTracks stream -> TrackStop t ∈ emitted (stopWebcam env) s)
  /\ videoStream s' = None
  /\ (exists v', videoElement s' = Some v' /\ srcObject v' = None)
  /\ canvas s' = None
  /\ (forall c, canvas s = Some c ->
        length (canvasPool s') = Nat.min (S (length (canvasPool s))) 10 /\
        (length (canvasPool s) < 10 -> canvasPool s' = canvasPool s ++ [c]))
  /\ faceMatcher s' = None
  /\ labeledDescriptors s' = labeledDescriptors s
  /\ (labeledDescriptors s <> [] ->
        setupFaceMatcher env s'
        = (Ok tt,
           set_faceMatcher
             (Some (labeledDescriptorsArray (labeledDescriptors s))) s'))
  /\ (forall s0, videoStream s0 = None -> stopWebcam env s0 = (Ok tt, s0)).
Proof.
  intros Hs Hv Hmax Hlen Hok s'.
  pose proof (stopWebcam_run env s stream v Hs Hv Hok) as Hrun.
  set (s1 := set_videoElement _ _) in Hrun.
  assert (s' = disposed (released s1)) as Hs'.
  { subst s'. unfold exec. by rewrite Hrun. }
  destruct (disposed_fields (released s1)) as (Hd1 & Hd2 & Hd3 & Hd4 & Hd5 & Hd6).
  destruct (released_fields s1) as (Hr1 & Hr2 & Hr3 & Hr4 & Hr5).
  rewrite <- Hs' in Hd1, Hd2, Hd3, Hd4, Hd5, Hd6.
  split; [by rewrite Hrun|].
  split.
  { intros t Ht. unfold emitted. fold s'. rewrite Hs'.
    destruct (disposed_trace (released s1)) as [x2 ->].
    destruct (released_trace s1) as [x1 ->].
    subst s1. simpl. rewrite <- !app_assoc, drop_app_length.
    apply elem_of_app. left. by apply list_elem_of_fmap_2. }
  split; [by rewrite Hd5, Hr4|].
  split; [rewrite Hd6, Hr5; by eexists|].
  split; [by rewrite Hd2|].
  split.
  { intros c Hc. rewrite Hd3. unfold released.
    change (canvas s1) with (canvas s). change (canvasPool s1) with (canvasPool s).
    change (maxCanvasPoolSize s1) with (maxCanvasPoolSize s).
    rewrite Hc, Hmax.
    destruct (Nat.ltb_spec (length (canvasPool s)) 10); simpl;
      rewrite ?length_app; simpl; split; (done || lia). }
  split; [done|].
  assert (labeledDescriptors s' = labeledDescriptors s) as Hgallery
    by (by rewrite Hd4, Hr3).
  split; [done|]. split.
  - intros Hne. rewrite <- Hgallery in Hne |- *.
    by apply setupFaceMatcher_from_gallery.
  - intros s0. apply stopWebcam_idle.
Qed.

Lemma stopWebcam_releases_witness :
  fst (stopWebcam demoEnv demoPlaying) = Ok tt
  /\ videoStream (exec (stopWebcam demoEnv) demoPlaying) = None.
Proof.
  destruct (stopWebcam_releases demoEnv demoPlaying
              {| getTracks := [0; 1] |}
              {| width := 600; height := 450;
                 srcObject := Some {| getTracks := [0; 1] |};
                 playListeners := 1; onended := true |})
    as (Hok & _ & Hstream & _).
  - reflexivity.
  - reflexivity.
  - reflexivity.
  - simpl. lia.
  - intros t _. reflexivity.
  - split; [exact Hok | exact Hstream].
Defined.

(** The statement of C9 fails twice.  On a host whose first track throws
    on [stop], the second track is never asked to stop and the stream
    handle stays in place.  On a page whose gallery stayed empty, the
    [setupFaceMatcher] that follows a release fetches the images again. *)
Lemma release_as_stated_fails :
  ~ release_as_stated stuckEnv demoPlaying
  /\ ~ release_as_stated demoEnv strangersPlaying.
Proof.
  split.
  - intros [Hactive _].
    destruct (Hactive {| getTracks := [0; 1] |} eq_refl) as (_ & Hstream & _).
    vm_compute in Hstream. discriminate Hstream.
  - intros [Hactive _].
    destruct (Hactive {| getTracks := [0; 1] |} eq_refl)
      as (_ & _ & _ & _ & _ & Hfetch).
    vm_compute in Hfetch. discriminate Hfetch.
Qed.

(** What a throwing [stop] does to the release on the demo page: only the
    first track was asked to stop, the promise of [stopWebcam] rejects, and
    stream, surface and matcher stay. *)
Example stopWebcam_stuck_track :
  fst (stopWebcam stuckEnv demoPlaying) = Throw (Error "InvalidStateError")
  /\ emitted (stopWebcam stuckEnv) demoPlaying = [TrackStop 0]
  /\ videoStream (exec (stopWebcam stuckEnv) demoPlaying)
     = Some {| getTracks := [0; 1] |}
  /\ canvas (exec (stopWebcam stuckEnv) demoPlaying) = Some 0
  /\ faceMatcher (exec (stopWebcam stuckEnv) demoPlaying)
     = faceMatcher demoPlaying.
Proof. repeat split; reflexivity. Qed.

(** On a page whose gallery stayed empty the next [setupFaceMatcher]
    fetches the reference images again. *)
Example setupFaceMatcher_refetches_empty_gallery :
  emitted (setupFaceMatcher demoEnv)
    (exec (stopWebcam demoEnv)
       (exec (setupFaceMatcher demoEnv)
          (exec (setupWebcam demoEnv) strangersStart)))
  = [FetchImage "/static/labels/bob.jpg";
     ConsoleError "Error processing image /static/labels/bob.jpg: " [Error "404"];
     FetchImage "/static/labels/carol.jpg";
     DetectImage "carol.jpg"].
Proof. reflexivity. Qed.

(** *** The frame loop *)

Lemma step_detected (env : Env) (s : State) (n : nat)
    (settled : result (list FaceDescription)) :
  awaiting s = S n ->
  step env (Detected settled) s
  = detached (processVideoFrames_resume env settled) (set_awaiting n s).
Proof. intros Ha. unfold step. by rewrite bind_get, Ha, bind_modify. Qed.

Lemma step_detected_idle (env : Env) (s : State)
    (settled : result (list FaceDescription)) :
  awaiting s = 0 -> step env (Detected settled) s = (Ok tt, s).
Proof. intros Ha. unfold step. by rewrite bind_get, Ha. Qed.

Lemma detached_thrown (m : M unit) (s s' : State) (e : JsError) :
  m s = (Throw e, s') ->
  detached m s = (Ok tt, set_trace (trace s' ++ [UnhandledRejection e]) s').
Proof. unfold detached, try_catch. by intros ->. Qed.

Lemma detached_ok (m : M unit) (s s' : State) :
  m s = (Ok tt, s') -> detached m s = (Ok tt, s').
Proof. unfold detached, try_catch. by intros ->. Qed.

Lemma processVideoFrames_start_run (s : State) (v : VideoElement) :
  videoElement s = Some v ->
  processVideoFrames_start s
  = (Ok true,
     set_awaiting (S (awaiting s))
       (set_trace (trace s ++ [DetectVideo (minConfidenceThreshold (config s))]) s)).
Proof.
  intros Hv. unfold processVideoFrames_start.
  by rewrite bind_get, Hv, bind_emit, bind_modify.
Qed.

Lemma step_frame (env : Env) (s : State) (n : nat) (v : VideoElement) :
  rafQueue s = S n ->
  videoElement s = Some v ->
  step env AnimationFrame s
  = (Ok tt,
     set_awaiting (S (awaiting s))
       (set_trace (trace s ++ [DetectVideo (minConfidenceThreshold (config s))])
          (set_rafQueue n s))).
Proof.
  intros Hq Hv. unfold step. rewrite bind_get, Hq, bind_modify.
  apply detached_ok.
  by erewrite bind_ok by (apply (processVideoFrames_start_run _ v); exact Hv).
Qed.

Lemma step_frame_idle (env : Env) (s : State) :
  rafQueue s = 0 -> step env AnimationFrame s = (Ok tt, s).
Proof. intros Hq. unfold step. by rewrite bind_get, Hq. Qed.

Lemma resume_rejected (env : Env) (e : JsError) (s : State) :
  processVideoFrames_resume env (Throw e) s = (Throw e, s).
Proof. done. Qed.

Lemma resume_no_canvas (env : Env) (detections : list FaceDescription) (s : State) :
  canvas s = None ->
  processVideoFrames_resume env (Ok detections) s
  = (Throw (TypeError "Cannot read properties of null (reading 'getContext')"), s).
Proof.
  intros Hc. unfold processVideoFrames_resume.
  rewrite bind_lift_ok, bind_get. cbv zeta.
  apply bind_thrown. unfold updateCanvas. by rewrite bind_get, Hc.
Qed.

Lemma resume_no_matcher (env : Env) (detections : list FaceDescription)
    (s : State) (c : Canvas) :
  canvas s = Some c ->
  faceMatcher s = None ->
  resizeResults env detections (displaySize s) <> [] ->
  processVideoFrames_resume env (Ok detections) s
  = (Throw (TypeError "Cannot read properties of null (reading 'findBestMatch')"),
     set_trace (trace s ++ [ClearRect c]) s).
Proof.
  intros Hc Hm Hne. unfold processVideoFrames_resume.
  rewrite bind_lift_ok, bind_get. cbv zeta.
  apply bind_thrown. unfold updateCanvas. rewrite bind_get, Hc, bind_emit.
  destruct (resizeResults env detections (displaySize s)) as [|d ds]; [done|].
  simpl for_of. apply bind_thrown. rewrite bind_get.
  cbn [faceMatcher set_trace]. by rewrite Hm.
Qed.

Lemma resume_rendered (env : Env) (detections : list FaceDescription)
    (s : State) (c : Canvas) (m : FaceMatcher) :
  canvas s = Some c ->
  faceMatcher s = Some m ->
  processVideoFrames_resume env (Ok detections) s
  = (Ok tt,
     set_rafQueue (S (rafQueue s))
       (set_trace
          (trace s ++ ClearRect c
             :: map (drawn env (config s) c m)
                  (resizeResults env detections (displaySize s))
             ++ [RequestAnimationFrame]) s)).
Proof.
  intros Hc Hm. unfold processVideoFrames_resume.
  rewrite bind_lift_ok, bind_get. cbv zeta.
  erewrite bind_ok by (by apply updateCanvas_run).
  unfold requestAnimationFrame. rewrite bind_emit. unfold modify. simpl.
  by rewrite <- app_assoc.
Qed.

(** Once nothing is queued and nothing is in flight, the loop is over. *)
Lemma loop_over (env : Env) (acts : list action) (s : State) :
  rafQueue s = 0 ->
  awaiting s = 0 ->
  Forall frameAction acts ->
  run env acts s = s.
Proof.
  intros Hq Ha Hacts. induction Hacts as [|a acts Hfa _ IH]; [done|].
  simpl. destruct a; try done; unfold exec.
  - by rewrite step_frame_idle.
  - by rewrite step_detected_idle.
Qed.

(** C3.  Nothing in an iteration catches a failure of its work.  When the
    detection rejects, when no surface is in place at rendering, or when no
    matcher is in place while a detection is to be matched, the promise of
    the iteration rejects unhandled: the console is not written and
    [requestAnimationFrame] is not called, so the iteration has no
    successor.  If it was the only iteration in flight and no callback was
    queued, no later frame or detection changes the state any more.  An
    iteration whose work succeeds draws and then requests exactly one next
    iteration. *)
Theorem failing_frame_ends_iteration (env : Env) (s : State) (n : nat) :
  awaiting s = S n ->
  (forall e,
     emitted (step env (Detected (Throw e))) s = [UnhandledRejection e]
     /\ rafQueue (exec (step env (Detected (Throw e))) s) = rafQueue s
     /\ awaiting (exec (step env (Detected (Throw e))) s) = n)
  /\ (canvas s = None -> forall detections,
        emitted (step env (Detected (Ok detections))) s
        = [UnhandledRejection
             (TypeError "Cannot read properties of null (reading 'getContext')")]
        /\ rafQueue (exec (step env (Detected (Ok detections))) s) = rafQueue s
        /\ awaiting (exec (step env (Detected (Ok detections))) s) = n)
  /\ (forall c, canvas s = Some c -> faceMatcher s = None ->
      forall detections, resizeResults env detections (displaySize s) <> [] ->
        emitted (step env (Detected (Ok detections))) s
        = [ClearRect c;
           UnhandledRejection
             (TypeError "Cannot read properties of null (reading 'findBestMatch')")]
        /\ rafQueue (exec (step env (Detected (Ok detections))) s) = rafQueue s
        /\ awaiting (exec (step env (Detected (Ok detections))) s) = n)
  /\ (forall c m, canvas s = Some c -> faceMatcher s = Some m ->
      forall detections,
        emitted (step env (Detected (Ok detections))) s
        = ClearRect c
            :: map (drawn env (config s) c m)
                 (resizeResults env detections (displaySize s))
            ++ [RequestAnimationFrame]
        /\ rafQueue (exec (step env (Detected (Ok detections))) s)
           = S (rafQueue s)
        /\ awaiting (exec (step env (Detected (Ok detections))) s) = n)
  /\ (rafQueue s = 0 -> n = 0 -> forall e acts,
        Forall frameAction acts ->
        run env acts (exec (step env (Detected (Throw e))) s)
        = exec (step env (Detected (Throw e))) s).
Proof.
  intros Ha.
  assert (forall e,
     emitted (step env (Detected (Throw e))) s = [UnhandledRejection e]
     /\ rafQueue (exec (step env (Detected (Throw e))) s) = rafQueue s
     /\ awaiting (exec (step env (Detected (Throw e))) s) = n) as Hrejected.
  { intros e. unfold emitted, exec. rewrite (step_detected env s n _ Ha).
    rewrite (detached_thrown _ _ _ e (resume_rejected env e _)). simpl.
    by rewrite drop_app_length. }
  split; [done|]. split; [|split; [|split]].
  - intros Hc detections. unfold emitted, exec.
    rewrite (step_detected env s n _ Ha).
    rewrite (detached_thrown _ _ _ _
               (resume_no_canvas env detections (set_awaiting n s) Hc)).
    simpl. by rewrite drop_app_length.
  - intros c Hc Hm detections Hne. unfold emitted, exec.
    rewrite (step_detected env s n _ Ha).
    rewrite (detached_thrown _ _ _ _
               (resume_no_matcher env detections (set_awaiting n s) c Hc Hm Hne)).
    simpl. by rewrite <- app_assoc, drop_app_length.
  - intros c m Hc Hm detections. unfold emitted, exec.
    rewrite (step_detected env s n _ Ha).
    rewrite (detached_ok _ _ _
               (resume_rendered env detections (set_awaiting n s) c m Hc Hm)).
    simpl. by rewrite drop_app_length.
  - intros Hq -> e acts Hacts.
    destruct (Hrejected e) as (_ & Hq' & Ha').
    apply loop_over; [by rewrite Hq' | done | done].
Qed.

Lemma failing_frame_ends_iteration_witness :
  emitted (step demoEnv (Detected (Throw (Error "detection failed")))) demoAnalysing
  = [UnhandledRejection (Error "detection failed")]
  /\ rafQueue (exec (step demoEnv (Detected (Throw (Error "detection failed"))))
                demoAnalysing) = 0.
Proof.
  destruct (failing_frame_ends_iteration demoEnv demoAnalysing 0 eq_refl)
    as (Hrejected & _).
  destruct (Hrejected (Error "detection failed")) as (Hemitted & Hqueue & _).
  split; [exact Hemitted | exact Hqueue].
Defined.

(** The statement of C3 fails on the demo page: the detection of the first
    frame rejects, nothing is logged and no next iteration is requested. *)
Lemma failure_contained_fails :
  ~ failure_contained demoEnv demoAnalysing (Error "detection failed").
Proof.
  intros [_ Hqueue]. vm_compute in Hqueue. discriminate Hqueue.
Qed.

(** *** Stopping the loop *)

Lemma rafCount_app (t t' : list event) :
  rafCount (t ++ t') = rafCount t + rafCount t'.
Proof. unfold rafCount. by rewrite List.filter_app, length_app. Qed.

Lemma rafCount_drawn (env : Env) (cfg : Config) (c : Canvas) (m : FaceMatcher)
    (detections : list FaceDescription) :
  rafCount (map (drawn env cfg c m) detections) = 0.
Proof. by induction detections. Qed.

(** One round of a loop that has its surface and its matcher: the detection
    settles, the boxes are drawn, the next callback is requested and runs. *)
Lemma frame_round (env : Env) (s : State) (c : Canvas) (m : FaceMatcher)
    (v : VideoElement) (n : nat) (detections : list FaceDescription) :
  canvas s = Some c ->
  faceMatcher s = Some m ->
  videoElement s = Some v ->
  awaiting s = S n ->
  let s' := run env [Detected (Ok detections); AnimationFrame] s in
  canvas s' = Some c /\ faceMatcher s' = Some m /\ videoElement s' = Some v
  /\ awaiting s' = S n /\ rafQueue s' = rafQueue s
  /\ rafCount (trace s') = S (rafCount (trace s)).
Proof.
  intros Hc Hm Hv Ha. simpl. unfold exec.
  rewrite (step_detected env s n _ Ha).
  rewrite (detached_ok _ _ _
             (resume_rendered env detections (set_awaiting n s) c m Hc Hm)).
  cbn [snd].
  erewrite step_frame; [|reflexivity|exact Hv].
  simpl. repeat split; try done.
  rewrite !rafCount_app. change (ClearRect c :: ?l) with ([ClearRect c] ++ l).
  rewrite !rafCount_app, rafCount_drawn. unfold rafCount. simpl. lia.
Qed.

Lemma loop_survives (env : Env) (k : nat) (detections : list FaceDescription) :
  forall (s : State) (c : Canvas) (m : FaceMatcher) (v : VideoElement) (n : nat),
    canvas s = Some c ->
    faceMatcher s = Some m ->
    videoElement s = Some v ->
    awaiting s = S n ->
    let s' := run env (frames k detections) s in
    awaiting s' = S n /\ rafQueue s' = rafQueue s
    /\ rafCount (trace s') = rafCount (trace s) + k.
Proof.
  induction k as [|k IH]; intros s c m v n Hc Hm Hv Ha; simpl.
  { by rewrite Nat.add_0_r. }
  destruct (frame_round env s c m v n detections Hc Hm Hv Ha)
    as (Hc' & Hm' & Hv' & Ha' & Hq' & Hr').
  simpl in Hc', Hm', Hv', Ha', Hq', Hr'.
  destruct (IH _ c m v n Hc' Hm' Hv' Ha') as (Ha'' & Hq'' & Hr'').
  unfold frames in Ha'', Hq'', Hr''.
  rewrite Ha'', Hq'', Hr'', Hq', Hr'. repeat split; try done. lia.
Qed.

(** *** A stop that does release the stream *)

Lemma released_quiet (s : State) :
  rafCount (trace (released s)) = rafCount (trace s).
Proof.
  unfold released. destruct (canvas s); [destruct (Nat.ltb _ _)|]; simpl; try done.
  rewrite rafCount_app. unfold rafCount at 2. simpl. lia.
Qed.

Lemma disposed_quiet (s : State) :
  rafCount (trace (disposed s)) = rafCount (trace s).
Proof.
  unfold disposed. destruct (faceMatcher s); simpl; try done.
  rewrite rafCount_app. unfold rafCount at 2. simpl. lia.
Qed.

Lemma rafCount_stops (tracks : list Track) : rafCount (map TrackStop tracks) = 0.
Proof. by induction tracks. Qed.

Lemma step_frame_no_video (env : Env) (s : State) (n : nat) :
  rafQueue s = S n ->
  videoElement s = None ->
  step env AnimationFrame s = (Ok tt, set_rafQueue n s).
Proof.
  intros Hq Hv. unfold step. rewrite bind_get, Hq, bind_modify.
  apply detached_ok. unfold processVideoFrames_start.
  unfold bind at 1. rewrite bind_get. cbn [videoElement set_rafQueue].
  by rewrite Hv.
Qed.

(** Without a surface every iteration fails at rendering: nothing is
    requested any more. *)
Lemma starved_loop (env : Env) (acts : list action) :
  Forall frameAction acts ->
  forall s, canvas s = None ->
    canvas (run env acts s) = None
    /\ rafCount (trace (run env acts s)) = rafCount (trace s).
Proof.
  induction 1 as [|a acts Hfa _ IH]; intros s Hc; [done|].
  simpl.
  assert (canvas (exec (step env a) s) = None
          /\ rafCount (trace (exec (step env a) s)) = rafCount (trace s))
    as [Hc' Hr'].
  { unfold exec. destruct a as [| | | |settled]; try done.
    - destruct (rafQueue s) as [|n] eqn:Hq.
      { by rewrite step_frame_idle. }
      destruct (videoElement s) as [v|] eqn:Hv.
      + rewrite (step_frame env s n v Hq Hv). simpl. split; [done|].
        rewrite rafCount_app. unfold rafCount at 2. simpl. lia.
      + by rewrite (step_frame_no_video env s n Hq Hv).
    - destruct (awaiting s) as [|n] eqn:Ha.
      { by rewrite step_detected_idle. }
      rewrite (step_detected env s n _ Ha).
      destruct settled as [detections|e].
      + rewrite (detached_thrown _ _ _ _
                   (resume_no_canvas env detections (set_awaiting n s) Hc)).
        simpl. split; [done|].
        rewrite rafCount_app. unfold rafCount at 2. simpl. lia.
      + rewrite (detached_thrown _ _ _ e (resume_rejected env e _)).
        simpl. split; [done|].
        rewrite rafCount_app. unfold rafCount at 2. simpl. lia. }
  destruct (IH _ Hc') as [Hc'' Hr'']. split; [done|]. by rewrite Hr'', Hr'.
Qed.

(** When [stopProcessing] finds an active stream whose tracks stop, the
    release takes the surface away, and that alone ends the loop: the
    iteration in flight fails at rendering and requests nothing. *)
Lemma stop_with_stream_halts (env : Env) (s : State) (stream : MediaStream)
    (v : VideoElement) :
  videoStream s = Some stream ->
  videoElement s = Some v ->
  (forall t, t ∈ getTracks stream -> trackStop env t = Ok tt) ->
  stop_halts_loop env s.
Proof.
  intros Hs Hv Hok acts Hacts.
  change (run env (Stop :: acts) s) with (run env acts (exec (step env Stop) s)).
  pose proof (stopWebcam_run env (set_videoElement (Some v) s) stream v
                Hs eq_refl Hok) as Hrun.
  set (s1 := set_videoElement _ (set_videoStream _ _)) in Hrun.
  assert (exec (step env Stop) s = disposed (released s1)) as ->.
  { unfold exec, step. rewrite bind_get. unfold stopProcessing.
    erewrite detached_ok; [done|].
    erewrite bind_ok by (by apply updateVideo_run).
    by apply detached_ok. }
  destruct (disposed_fields (released s1)) as (_ & Hc & _).
  destruct (released_fields s1) as (Hc1 & _).
  destruct (starved_loop env acts Hacts (disposed (released s1))) as [_ ->].
  { by rewrite Hc. }
  rewrite disposed_quiet, released_quiet. subst s1. simpl.
  rewrite rafCount_app, rafCount_stops. lia.
Qed.

(** With no stream [stopProcessing] leaves every field as it is. *)
Lemma stopProcessing_idle (env : Env) (s : State) (v : VideoElement) :
  videoStream s = None ->
  videoElement s = Some v ->
  stopProcessing env s = (Ok tt, set_videoElement (Some v) s).
Proof.
  intros Hs Hv. unfold stopProcessing.
  erewrite bind_ok by (by apply updateVideo_run).
  apply detached_ok. by apply stopWebcam_idle.
Qed.

(** A stop without a stream, followed by [k] rounds of a loop that has its
    surface and matcher. *)
Lemma stop_without_stream_rounds (env : Env) (s : State) (c : Canvas)
    (m : FaceMatcher) (v : VideoElement) (n k : nat)
    (detections : list FaceDescription) :
  videoStream s = None ->
  canvas s = Some c ->
  faceMatcher s = Some m ->
  videoElement s = Some v ->
  awaiting s = S n ->
  awaiting (run env (Stop :: frames k detections) s) = S n
  /\ rafCount (trace (run env (Stop :: frames k detections) s))
     = rafCount (trace s) + k.
Proof.
  intros Hs Hc Hm Hv Ha.
  change (run env (Stop :: frames k detections) s)
    with (run env (frames k detections) (exec (step env Stop) s)).
  assert (exec (step env Stop) s = set_videoElement (Some v) s) as ->.
  { unfold exec, step. rewrite bind_get.
    by rewrite (detached_ok _ _ _ (stopProcessing_idle env s v Hs Hv)). }
  destruct (loop_survives env k detections (set_videoElement (Some v) s) c m v n
              Hc Hm eq_refl Ha) as (Ha' & _ & Hr').
  by split.
Qed.

(** C2.  On the demo page the video is stopped and then plays again: the
    'play' listener was never removed, so the loop restarts, now without a
    stream.  A stop requested while this loop analyses a frame changes
    nothing, and each of the [k] rounds that follow renders and requests a
    further iteration. *)
Theorem stopProcessing_without_stream (k : nat) :
  videoStream demoRestarted = None
  /\ awaiting demoRestarted = 1
  /\ stopProcessing demoEnv demoRestarted = (Ok tt, demoRestarted)
  /\ awaiting (run demoEnv (Stop :: frames k []) demoRestarted) = 1
  /\ rafCount (trace (run demoEnv (Stop :: frames k []) demoRestarted))
     = rafCount (trace demoRestarted) + k
  /\ ~ stop_halts_loop demoEnv demoRestarted.
Proof.
  assert (videoStream demoRestarted = None) as Hs by (vm_compute; reflexivity).
  assert (canvas demoRestarted = Some 0) as Hc by (vm_compute; reflexivity).
  assert (faceMatcher demoRestarted
          = Some [{| lfd_label := "alice"; lfd_descriptors := [aliceDescriptor] |}])
    as Hm by (vm_compute; reflexivity).
  assert (videoElement demoRestarted
          = Some {| width := 600; height := 450; srcObject := None;
                    playListeners := 1; onended := true |})
    as Hv by (vm_compute; reflexivity).
  assert (awaiting demoRestarted = 1) as Ha by (vm_compute; reflexivity).
  pose proof (fun j => stop_without_stream_rounds demoEnv demoRestarted _ _ _ 0 j []
                         Hs Hc Hm Hv Ha) as Hrounds.
  split; [exact Hs|]. split; [exact Ha|].
  split; [vm_compute; reflexivity|].
  destruct (Hrounds k) as [Hak Hrk]. split; [exact Hak|]. split; [exact Hrk|].
  intros Hhalts.
  destruct (Hrounds 1) as [_ Hr1].
  rewrite (Hhalts (frames 1 [])) in Hr1 by (repeat constructor).
  revert Hr1. generalize (rafCount (trace demoRestarted)). intros x Hx. lia.
Qed.

(** *** Properties kept by every computation of a kind *)

Section Preservation.

Context (P : State -> Prop).

Lemma preserves_ret {A} (a : A) : preserves P (ret a).
Proof. by intros s. Qed.

Lemma preserves_throw {A} (e : JsError) : preserves P (@throw A e).
Proof. by intros s. Qed.

Lemma preserves_lift {A} (r : result A) : preserves P (lift r).
Proof. by intros s. Qed.

Lemma preserves_get : preserves P get.
Proof. by intros s. Qed.

Lemma preserves_bind {A B} (m : M A) (k : A -> M B) :
  preserves P m -> (forall a, preserves P (k a)) -> preserves P (bind m k).
Proof.
  intros Hm Hk s Hs. unfold bind. specialize (Hm s Hs).
  destruct (m s) as [[a|e] s']; [by apply Hk | done].
Qed.

Lemma preserves_try_catch {A} (body : M A) (handler : JsError -> M A) :
  preserves P body -> (forall e, preserves P (handler e)) ->
  preserves P (try_catch body handler).
Proof.
  intros Hm Hk s Hs. unfold try_catch. specialize (Hm s Hs).
  destruct (body s) as [[a|e] s']; [done | by apply Hk].
Qed.

Lemma preserves_modify (f : State -> State) :
  (forall s, P s -> P (f s)) -> preserves P (modify f).
Proof. intros Hf s Hs. by apply Hf. Qed.

Lemma preserves_emit (e : event) :
  (forall s, P s -> P (set_trace (trace s ++ [e]) s)) -> preserves P (emit e).
Proof. intros He. by apply preserves_modify. Qed.

Lemma preserves_detached (m : M unit) :
  preserves P m ->
  (forall e s, P s -> P (set_trace (trace s ++ [UnhandledRejection e]) s)) ->
  preserves P (detached m).
Proof.
  intros Hm He. unfold detached. apply preserves_try_catch; [done|].
  intros e. apply preserves_emit. apply He.
Qed.

Lemma preserves_for_of {A} (xs : list A) (body : A -> M unit) :
  (forall x, preserves P (body x)) -> preserves P (for_of xs body).
Proof.
  intros Hbody. induction xs as [|x xs IH]; simpl.
  - apply preserves_ret.
  - apply preserves_bind; [apply Hbody | intros _; apply IH].
Qed.

Lemma preserves_times (n : nat) (m : M unit) :
  preserves P m -> preserves P (times n m).
Proof.
  intros Hm. induction n as [|n IH]; simpl.
  - apply preserves_ret.
  - apply preserves_bind; [apply Hm | intros _; apply IH].
Qed.

Lemma preserves_session (env : Env) (calls : list call) :
  (forall c, preserves P (perform env c)) ->
  forall s, P s -> P (session env calls s).
Proof.
  intros Hc. induction calls as [|c calls IH]; intros s Hs; [done|].
  simpl. apply IH. by apply Hc.
Qed.

End Preservation.

(** Takes a goal [preserves P m] apart along the shape of [m]; [leaf] proves
    what a [modify] or an [emit] has to keep. *)
Ltac preserve_step leaf :=
  first
    [ assumption
    | apply preserves_ret
    | apply preserves_throw
    | apply preserves_get
    | apply preserves_lift
    | apply preserves_bind; [|intros ?]
    | apply preserves_try_catch; [|intros ?]
    | apply preserves_for_of; intros ?
    | apply preserves_times
    | apply preserves_detached; [|solve [leaf]]
    | apply preserves_modify; solve [leaf]
    | apply preserves_emit; solve [leaf]
    | match goal with
      | |- preserves _ (match ?x with _ => _ end) => destruct x
      | |- preserves _ (let _ := _ in _) => cbv zeta
      end ].

Ltac preserve_with leaf := repeat (preserve_step leaf).

Lemma preserves_describeLabels (P : State -> Prop) (env : Env) :
  (forall acc l, preserves P (describeLabel env acc l)) ->
  forall L acc, preserves P (describeLabels env L acc).
Proof.
  intros Hone. induction L as [|l L IH]; intros acc; simpl.
  - apply preserves_ret.
  - apply preserves_bind; [apply Hone | intros acc'; apply IH].
Qed.

(** *** The one surface of an instance *)

Ltac surface_leaf :=
  intros;
  match goal with
  | H : oneSurface _ |- _ =>
      let Hmax := fresh in
      let Hphase := fresh in
      let Hrem := fresh in
      destruct H as (Hmax & Hphase & Hrem);
      split; [exact Hmax | split; [exact Hphase|]]; simpl;
      first
        [ exact Hrem
        | let c := fresh in
          let Hin := fresh in
          intros c Hin; apply elem_of_app in Hin as [Hin|Hin];
          [ by apply (Hrem c)
          | apply list_elem_of_singleton in Hin; discriminate ] ]
  end.

Lemma setupCanvas_oneSurface : preserves oneSurface setupCanvas.
Proof.
  intros s (Hmax & Hphase & Hrem).
  unfold setupCanvas, takeCanvas, theVideo, bind, get, modify, emit, modify,
    ret, throw, array_pop.
  destruct Hphase as [(Hc & Hp & Hn)|[(Hc & Hp & Hn)|(Hc & Hp & Hn)]];
    simpl; rewrite ?Hc, ?Hp, ?Hn; simpl;
    destruct (videoElement s); simpl;
    (split; [done|split; [auto|]]); simpl; try done;
    intros c Hin; set_unfold; naive_solver.
Qed.

Lemma createCanvas_oneSurface : preserves oneSurface createCanvas.
Proof.
  intros s (Hmax & Hphase & Hrem).
  unfold createCanvas, takeCanvas, bind, get, modify, emit, modify,
    ret, throw, array_pop.
  destruct Hphase as [(Hc & Hp & Hn)|[(Hc & Hp & Hn)|(Hc & Hp & Hn)]];
    simpl; rewrite ?Hc, ?Hp, ?Hn; simpl;
    (split; [done|split; [auto|]]); simpl; try done;
    intros c Hin; set_unfold; naive_solver.
Qed.

Lemma cleanupCanvas_oneSurface : preserves oneSurface cleanupCanvas.
Proof.
  intros s (Hmax & Hphase & Hrem). rewrite cleanupCanvas_run. unfold released.
  destruct Hphase as [(Hc & Hp & Hn)|[(Hc & Hp & Hn)|(Hc & Hp & Hn)]];
    simpl; rewrite ?Hc, ?Hp, ?Hn, ?Hmax; simpl;
    (split; [done|split; [auto|]]); simpl; try done.
Qed.

Lemma perform_oneSurface (env : Env) (c : call) :
  preserves oneSurface (perform env c).
Proof.
  pose proof setupCanvas_oneSurface as Hsetup.
  pose proof createCanvas_oneSurface as Hcreate.
  pose proof cleanupCanvas_oneSurface as Hcleanup.
  destruct c as [uri| | | | | | | | | | |detections|labels| | | |a]; simpl;
    try assumption.
  all: try destruct a.
  all: unfold initialize, loadModels, setupWebcam, stopWebcam, startProcessing,
         stopProcessing, updateCanvasSize, setupFaceMatcher, updateCanvas,
         getLabeledFaceDescriptors, disposeUnusedResources, disposeFaceMatcher,
         step, playHandler, processVideoFrames_start, processVideoFrames_resume,
         requestAnimationFrame, updateVideo, theVideo, updateCanvas.
  all: try (preserve_with surface_leaf).
  all: try (apply preserves_describeLabels; intros acc l; unfold describeLabel;
            preserve_with surface_leaf).
  all: try (preserve_with surface_leaf).
Qed.

(** X1.  Whatever is done with a new instance, it owns at most one drawing
    surface: either none was created yet, or surface 0 is in use and the
    pool is empty, or surface 0 waits in the pool and none is in use.  So
    the pool never holds more than one surface, a second canvas element is
    never created, and no surface is ever removed from the page. *)
Theorem one_surface_per_instance (env : Env) (cfg : Config)
    (found : option VideoElement) (calls : list call) :
  let s := session env calls (FaceRecognition_new cfg found) in
  ((canvas s = None /\ canvasPool s = [] /\ nextElement s = 0) \/
   (canvas s = Some 0 /\ canvasPool s = [] /\ nextElement s = 1) \/
   (canvas s = None /\ canvasPool s = [0] /\ nextElement s = 1))
  /\ length (canvasPool s) <= 1
  /\ (forall c, Remove c ∉ trace s).
Proof.
  intros s.
  assert (oneSurface s) as (_ & Hphase & Hrem).
  { apply preserves_session; [apply perform_oneSurface|].
    split; [done|]. split; [by left|].
    intros c. simpl. destruct found; [apply not_elem_of_nil|].
    by intros ?%list_elem_of_singleton. }
  split; [done|]. split; [|done].
  destruct Hphase as [(_ & -> & _)|[(_ & -> & _)|(_ & -> & _)]]; simpl; lia.
Qed.

(** *** The video element and its listeners *)

Ltac video_leaf :=
  intros;
  match goal with
  | H : videoKept _ _ |- _ =>
      let v := fresh in
      let Hv := fresh in
      destruct H as (v & Hv); exists v; exact Hv
  end.

Lemma updateVideo_videoKept (v0 : VideoElement)
    (f : VideoElement -> VideoElement) :
  (forall v, width (f v) = width v /\ height (f v) = height v /\
             playListeners v <= playListeners (f v) /\
             (onended v = true -> onended (f v) = true)) ->
  preserves (videoKept v0) (updateVideo f).
Proof.
  intros Hf s (v & Hv & Hw & Hh & Hl & He).
  rewrite (updateVideo_run f s v Hv). destruct (Hf v) as (Hw' & Hh' & Hl' & He').
  exists (f v). simpl. repeat split; [congruence | congruence | lia | auto].
Qed.

Lemma perform_videoKept (env : Env) (v0 : VideoElement) (c : call) :
  preserves (videoKept v0) (perform env c).
Proof.
  assert (forall st, preserves (videoKept v0)
            (updateVideo (fun v =>
               {| width := width v; height := height v; srcObject := st;
                  playListeners := playListeners v; onended := onended v |})))
    as Hsrc.
  { intros st. apply updateVideo_videoKept. intros v. simpl. auto. }
  pose proof (Hsrc None) as Hoff.
  assert (preserves (videoKept v0)
            (updateVideo (fun v =>
               {| width := width v; height := height v; srcObject := srcObject v;
                  playListeners := S (playListeners v); onended := true |})))
    as Hlisten.
  { apply updateVideo_videoKept. intros v. simpl. auto. }
  assert (preserves (videoKept v0) (updateVideo (fun v => v))) as Hsame.
  { apply updateVideo_videoKept. intros v. auto. }
  destruct c as [uri| | | | | | | | | | |detections|labels| | | |a]; simpl.
  all: try destruct a.
  all: unfold initialize, loadModels, setupWebcam, stopWebcam, startProcessing,
         stopProcessing, setupCanvas, createCanvas, cleanupCanvas, takeCanvas,
         updateCanvasSize, setupFaceMatcher, updateCanvas,
         getLabeledFaceDescriptors, disposeUnusedResources, disposeFaceMatcher,
         step, playHandler, processVideoFrames_start, processVideoFrames_resume,
         requestAnimationFrame, theVideo.
  all: try (repeat first [apply Hsrc | preserve_step video_leaf]).
  all: try (apply preserves_describeLabels; intros acc l; unfold describeLabel;
            preserve_with video_leaf).
  all: try (preserve_with video_leaf).
Qed.

(** X2.  No call ever takes the video element of an instance away, changes
    its size, removes a 'play' listener or clears the 'ended' handler: after
    any sequence of calls the element is there with at least the listeners
    it had. *)
Theorem listeners_never_removed (env : Env) (calls : list call) (s : State)
    (v0 : VideoElement) :
  videoElement s = Some v0 ->
  exists v, videoElement (session env calls s) = Some v /\
            width v = width v0 /\ height v = height v0 /\
            playListeners v0 <= playListeners v /\
            (onended v0 = true -> onended v = true).
Proof.
  intros Hv. apply (preserves_session (videoKept v0) env calls).
  - apply perform_videoKept.
  - exists v0. auto.
Qed.

Lemma listeners_never_removed_witness :
  exists v, videoElement
              (session demoEnv [CallStopProcessing; Host Ended; CallStopWebcam]
                 demoPlaying) = Some v
            /\ 1 <= playListeners v.
Proof.
  destruct (listeners_never_removed demoEnv
              [CallStopProcessing; Host Ended; CallStopWebcam] demoPlaying
              {| width := 600; height := 450;
                 srcObject := Some {| getTracks := [0; 1] |};
                 playListeners := 1; onended := true |} eq_refl)
    as (v & Hv & _ & _ & Hl & _).
  exists v. split; [exact Hv | exact Hl].
Defined.


(** *** The gallery is built once *)




(** The build itself leaves the gallery of the instance alone. *)
Lemma getLabeledFaceDescriptors_keeps_gallery (env : Env) (L : list string)
    (s : State) :
  labeledDescriptors (exec (getLabeledFaceDescriptors env L) s)
  = labeledDescriptors s.
Proof. unfold exec. by rewrite getLabeledFaceDescriptors_run. Qed.




(** *** The models are loaded once *)

Ltac models_leaf :=
  intros;
  match goal with
  | H : modelsKept _ _ _ |- _ =>
      let Hp := fresh in
      let Hl := fresh in
      destruct H as [Hp Hl]; split; simpl;
      [ exact Hp
      | first [ exact Hl
              | rewrite List.filter_app; simpl; rewrite app_nil_r; exact Hl ] ]
  end.

Lemma loadModels_modelsKept (env : Env) (p : result bool) (t0 : list event)
    (uri : string) :
  preserves (modelsKept p t0) (loadModels env uri).
Proof. intros s [Hp Hl]. by rewrite (loadModels_cached env uri s p Hp). Qed.

Lemma perform_modelsKept (env : Env) (p : result bool) (t0 : list event)
    (c : call) :
  preserves (modelsKept p t0) (perform env c).
Proof.
  pose proof (loadModels_modelsKept env p t0) as Hload.
  destruct c as [uri| | | | | | | | | | |detections|labels| | | |a]; simpl.
  all: try destruct a.
  all: unfold initialize, setupWebcam, stopWebcam, startProcessing,
         stopProcessing, setupCanvas, createCanvas, cleanupCanvas, takeCanvas,
         updateCanvasSize, setupFaceMatcher, updateCanvas,
         getLabeledFaceDescriptors, disposeUnusedResources, disposeFaceMatcher,
         step, playHandler, processVideoFrames_start, processVideoFrames_resume,
         requestAnimationFrame, updateVideo, theVideo.
  all: try (repeat first [apply Hload | preserve_step models_leaf]).
  all: try (apply preserves_describeLabels; intros acc l; unfold describeLabel;
            preserve_with models_leaf).
  all: try (preserve_with models_leaf).
Qed.

(** X4.  Once [loadModels] has stored its promise, no call of any method
    replaces or clears it and no model is loaded again: after any sequence
    of calls the stored outcome is the same, a rejection included, and the
    trace holds no further [loadFromUri]. *)
Theorem models_loaded_once (env : Env) (calls : list call) (s : State)
    (p : result bool) :
  modelLoader s = Some p ->
  modelLoader (session env calls s) = Some p
  /\ List.filter is_load (trace (session env calls s))
     = List.filter is_load (trace s).
Proof.
  intros Hp.
  apply (preserves_session (modelsKept p (trace s)) env calls).
  - apply perform_modelsKept.
  - by split.
Qed.

Lemma models_loaded_once_witness :
  modelLoader
    (session offlineEnv [CallInitialize; CallLoadModels "/elsewhere"; CallInitialize]
       (exec (loadModels offlineEnv "/static/models") demoStart))
  = Some (Throw (Errors [Error "landmarks: 404"; Error "expressions: 404"])).
Proof.
  apply (models_loaded_once offlineEnv
           [CallInitialize; CallLoadModels "/elsewhere"; CallInitialize]
           (exec (loadModels offlineEnv "/static/models") demoStart)).
  reflexivity.
Defined.

(** *** The loop never forks *)

Lemma requestAnimationFrame_run (s : State) :
  requestAnimationFrame s
  = (Ok tt,
     set_rafQueue (S (rafQueue s))
       (set_trace (trace s ++ [RequestAnimationFrame]) s)).
Proof. done. Qed.

Lemma updateCanvas_queue (env : Env) (detections : list FaceDescription)
    (q a : nat) :
  preserves (fun s => rafQueue s = q /\ awaiting s = a)
    (updateCanvas env detections).
Proof. unfold updateCanvas. preserve_with ltac:(by intros). Qed.

(** An iteration that resumes requests at most one successor. *)
Lemma resume_queue (env : Env) (settled : result (list FaceDescription))
    (s : State) :
  awaiting (snd (processVideoFrames_resume env settled s)) = awaiting s
  /\ rafQueue (snd (processVideoFrames_resume env settled s)) <= S (rafQueue s).
Proof.
  unfold processVideoFrames_resume. destruct settled as [detections|e].
  - rewrite bind_lift_ok, bind_get. cbv zeta. unfold bind.
    pose proof (updateCanvas_queue env
                  (resizeResults env detections (displaySize s))
                  (rafQueue s) (awaiting s) s (conj eq_refl eq_refl)) as [Hq Ha].
    destruct (updateCanvas env _ s) as [[[]|e] s1]; simpl in *.
    + split; [done | lia].
    + split; [done | lia].
  - simpl. split; [done | lia].
Qed.

Lemma step_frame_queue (env : Env) (a : action) (s : State) :
  frameAction a ->
  rafQueue (exec (step env a) s) + awaiting (exec (step env a) s)
  <= rafQueue s + awaiting s.
Proof.
  intros Hfa. unfold exec. destruct a as [| | | |settled]; try done.
  - destruct (rafQueue s) as [|n] eqn:Hq.
    { rewrite step_frame_idle by done. simpl. lia. }
    destruct (videoElement s) as [v|] eqn:Hv.
    + rewrite (step_frame env s n v Hq Hv). simpl. lia.
    + rewrite (step_frame_no_video env s n Hq Hv). simpl. lia.
  - destruct (awaiting s) as [|n] eqn:Ha.
    { rewrite step_detected_idle by done. simpl. lia. }
    rewrite (step_detected env s n _ Ha).
    destruct (resume_queue env settled (set_awaiting n s)) as [Ha' Hq'].
    unfold detached, try_catch.
    destruct (processVideoFrames_resume env settled (set_awaiting n s))
      as [[[]|e] s1]; simpl in *; lia.
Qed.

(** X5.  While only the loop runs (callbacks fire, detections settle), the
    number of iterations queued or in flight never grows: an iteration
    requests at most one successor, and only after its own work is done.
    A single loop therefore never analyses two frames at once. *)
Theorem loop_never_forks (env : Env) (acts : list action) (s : State) :
  Forall frameAction acts ->
  rafQueue (run env acts s) + awaiting (run env acts s)
  <= rafQueue s + awaiting s.
Proof.
  intros Hacts. revert s.
  induction Hacts as [|a acts Hfa _ IH]; intros s; [done|].
  simpl. etrans; [apply IH|]. by apply step_frame_queue.
Qed.

Lemma loop_never_forks_witness :
  rafQueue (run demoEnv (AnimationFrame :: frames 3 [face aliceDescriptor None])
              demoPlaying)
  + awaiting (run demoEnv (AnimationFrame :: frames 3 [face aliceDescriptor None])
                demoPlaying)
  <= 1.
Proof.
  apply (loop_never_forks demoEnv
           (AnimationFrame :: frames 3 [face aliceDescriptor None]) demoPlaying).
  repeat constructor.
Defined.

(** *** One loop per listener *)

Lemma playHandler_ready (env : Env) (s : State) (c : Canvas) (m : FaceMatcher) :
  canvas s = Some c ->
  faceMatcher s = Some m ->
  detached (playHandler env) s
  = (Ok tt,
     set_rafQueue (S (rafQueue s))
       (set_trace (trace s ++ [RequestAnimationFrame]) s)).
Proof.
  intros Hc Hm. apply detached_ok. unfold playHandler.
  erewrite bind_ok; last first.
  { unfold setupCanvas. by rewrite bind_get, Hc. }
  erewrite bind_ok by (by apply (setupFaceMatcher_ready env s m)).
  apply requestAnimationFrame_run.
Qed.

Lemma play_handlers_ready (env : Env) (n : nat) :
  forall (s : State) (c : Canvas) (m : FaceMatcher),
    canvas s = Some c ->
    faceMatcher s = Some m ->
    times n (detached (playHandler env)) s
    = (Ok tt,
       set_rafQueue (rafQueue s + n)
         (set_trace (trace s ++ replicate n RequestAnimationFrame) s)).
Proof.
  induction n as [|n IH]; intros s c m Hc Hm; simpl.
  - unfold ret. rewrite app_nil_r, Nat.add_0_r. by destruct s.
  - erewrite bind_ok by (by apply (playHandler_ready env s c m)).
    rewrite (IH _ c m) by done. simpl.
    rewrite <- app_assoc. unfold set_rafQueue, set_trace. simpl.
    do 2 f_equal. lia.
Qed.

(** X6.  A 'play' event runs the handler once for every listener that
    [startProcessing] registered.  On an instance that already has its
    surface and its matcher, each run requests one frame: the number of
    loops grows by the number of listeners, so two calls of
    [startProcessing] make one 'play' start two loops. *)
Theorem play_starts_one_loop_per_listener (env : Env) (s : State)
    (c : Canvas) (m : FaceMatcher) (v : VideoElement) :
  canvas s = Some c ->
  faceMatcher s = Some m ->
  videoElement s = Some v ->
  rafQueue (exec (step env Play) s) = rafQueue s + playListeners v
  /\ emitted (step env Play) s = replicate (playListeners v) RequestAnimationFrame
  /\ (forall v', videoElement (exec startProcessing s) = Some v' ->
      playListeners v' = S (playListeners v)).
Proof.
  intros Hc Hm Hv.
  assert (step env Play s
          = (Ok tt,
             set_rafQueue (rafQueue s + playListeners v)
               (set_trace
                  (trace s ++ replicate (playListeners v) RequestAnimationFrame)
                  s))) as Hplay.
  { unfold step. rewrite bind_get, Hv. by apply (play_handlers_ready env _ s c m). }
  unfold emitted, exec. rewrite Hplay. simpl.
  split; [done|]. split; [by rewrite drop_app_length|].
  unfold startProcessing. rewrite (updateVideo_run _ s v Hv). simpl.
  by intros v' [= <-].
Qed.

Lemma play_starts_one_loop_per_listener_witness :
  rafQueue (exec (step demoEnv Play) (exec startProcessing demoPlaying))
  = rafQueue (exec startProcessing demoPlaying) + 2.
Proof.
  apply (play_starts_one_loop_per_listener demoEnv
           (exec startProcessing demoPlaying) 0
           [{| lfd_label := "alice"; lfd_descriptors := [aliceDescriptor] |}]
           {| width := 600; height := 450;
              srcObject := Some {| getTracks := [0; 1] |};
              playListeners := 2; onended := true |});
    reflexivity.
Defined.

(** *** Giving a surface back and taking it again *)

Lemma array_pop_push {A} (a : list A) (x : A) :
  array_pop (a ++ [x]) = Some (x, a).
Proof. unfold array_pop. by rewrite last_snoc, removelast_last. Qed.

Lemma takeCanvas_run (s : State) :
  takeCanvas s
  = match array_pop (canvasPool s) with
    | Some (c, rest) => (Ok c, set_canvasPool rest s)
    | None => (Ok (nextElement s), set_nextElement (S (nextElement s)) s)
    end.
Proof.
  unfold takeCanvas. rewrite bind_get.
  by destruct (array_pop (canvasPool s)) as [[c rest]|].
Qed.

Lemma setupCanvas_taking (s : State) (c : Canvas) (s1 : State) :
  canvas s = None ->
  takeCanvas s = (Ok c, s1) ->
  canvas (exec setupCanvas s) = Some c
  /\ canvasPool (exec setupCanvas s) = canvasPool s1
  /\ nextElement (exec setupCanvas s) = nextElement s1.
Proof.
  intros Hc Htake. unfold exec, setupCanvas.
  rewrite bind_get, Hc. erewrite bind_ok by exact Htake.
  rewrite bind_modify, bind_emit.
  match goal with
  | |- canvas (snd (?tail ?st)) = _ /\ _ =>
      cut (preserves (fun st' => canvas st' = Some c
                                 /\ canvasPool st' = canvasPool s1
                                 /\ nextElement st' = nextElement s1) tail);
      [ intros Htail; exact (Htail st (conj eq_refl (conj eq_refl eq_refl))) | ]
  end.
  unfold theVideo. preserve_with ltac:(by intros).
Qed.

Lemma createCanvas_taking (s : State) (c : Canvas) (s1 : State) :
  canvas s = None ->
  takeCanvas s = (Ok c, s1) ->
  canvas (exec createCanvas s) = Some c
  /\ canvasPool (exec createCanvas s) = canvasPool s1
  /\ nextElement (exec createCanvas s) = nextElement s1.
Proof.
  intros Hc Htake. unfold exec, createCanvas.
  rewrite bind_get, Hc. erewrite bind_ok by exact Htake.
  by rewrite bind_modify.
Qed.

(** X7.  A surface given back to a pool that has room is the one the next
    [setupCanvas] or [createCanvas] takes, and the pool is then as it was:
    no new canvas element is created.  When the pool is full the surface
    given back is removed from the page, and the next one taken is the top
    of the pool. *)
Theorem release_then_acquire (s : State) (c : Canvas) :
  canvas s = Some c ->
  (length (canvasPool s) < maxCanvasPoolSize s ->
     (canvas (exec setupCanvas (exec cleanupCanvas s)) = Some c
      /\ canvasPool (exec setupCanvas (exec cleanupCanvas s)) = canvasPool s
      /\ nextElement (exec setupCanvas (exec cleanupCanvas s)) = nextElement s)
     /\ (canvas (exec createCanvas (exec cleanupCanvas s)) = Some c
         /\ canvasPool (exec createCanvas (exec cleanupCanvas s)) = canvasPool s
         /\ nextElement (exec createCanvas (exec cleanupCanvas s)) = nextElement s))
  /\ (maxCanvasPoolSize s <= length (canvasPool s) ->
      forall rest top, canvasPool s = rest ++ [top] ->
        emitted cleanupCanvas s = [Remove c]
        /\ canvas (exec setupCanvas (exec cleanupCanvas s)) = Some top
        /\ canvasPool (exec setupCanvas (exec cleanupCanvas s)) = rest
        /\ nextElement (exec setupCanvas (exec cleanupCanvas s)) = nextElement s).
Proof.
  intros Hc. unfold emitted. unfold exec at 2 4 6 8 10 12 13 15 17 19.
  rewrite (cleanupCanvas_holding s c Hc). cbn [snd]. split.
  - intros Hlt. apply Nat.ltb_lt in Hlt. rewrite Hlt.
    set (s1 := set_canvas None _).
    assert (takeCanvas s1 = (Ok c, set_canvasPool (canvasPool s) s1)) as Htake.
    { rewrite takeCanvas_run. subst s1. cbn [canvasPool set_canvas set_canvasPool].
      by rewrite (array_pop_push (canvasPool s) c). }
    split; [exact (setupCanvas_taking s1 c _ eq_refl Htake)
           | exact (createCanvas_taking s1 c _ eq_refl Htake)].
  - intros Hge rest top Hpool. apply Nat.ltb_ge in Hge. rewrite Hge.
    set (s1 := set_canvas None _).
    assert (takeCanvas s1 = (Ok top, set_canvasPool rest s1)) as Htake.
    { rewrite takeCanvas_run. subst s1. cbn [canvasPool set_canvas set_trace].
      by rewrite Hpool, (array_pop_push rest top). }
    split.
    { subst s1. cbn [trace set_canvas set_trace]. by rewrite drop_app_length. }
    exact (setupCanvas_taking s1 top _ eq_refl Htake).
Qed.

Lemma release_then_acquire_witness :
  canvas (exec setupCanvas (exec cleanupCanvas demoPlaying)) = Some 0
  /\ canvasPool (exec setupCanvas (exec cleanupCanvas demoPlaying)) = [].
Proof.
  destruct (release_then_acquire demoPlaying 0 eq_refl) as [Hroom _].
  destruct Hroom as [(Hcanvas & Hpool & _) _]; [simpl; lia|].
  split; [exact Hcanvas | exact Hpool].
Defined.

(** *** How [initialize] ends *)

(** [loadModels] touches the stored promise and the trace, nothing else, and
    writes only loads and console messages. *)
Lemma loadModels_effect (env : Env) (uri : string) (s : State) :
  exists extra,
    snd (loadModels env uri s)
    = set_trace (trace s ++ extra)
        (set_modelLoader (Some (fst (loadModels env uri s))) s)
    /\ Forall (fun ev => ev <> GetUserMedia) extra.
Proof.
  destruct (modelLoader s) as [p|] eqn:Hp.
  - exists []. rewrite (loadModels_cached env uri s p Hp). simpl.
    split; [|constructor]. rewrite app_nil_r.
    destruct s; simpl in *; by subst.
  - eexists. rewrite (loadModels_first env uri s Hp). cbn [fst snd].
    split; [done|].
    apply Forall_app. split.
    + unfold loadSequence. apply Forall_fmap, Forall_forall. by intros.
    + unfold loadLog. destruct (existsb _ _); repeat constructor; done.
Qed.

Lemma pair_eta {A B} (p : A * B) : p = (fst p, snd p).
Proof. by destruct p. Qed.

(** X8.  When the models cannot be loaded, now or at an earlier attempt,
    [initialize] rejects with the reasons of [loadModels] after writing them
    to the console; it does not ask for the camera, takes no surface and
    registers no listener. *)
Theorem initialize_without_models (env : Env) (s : State) (e : JsError) :
  fst (loadModels env (modelUri (config s)) s) = Throw e ->
  initialize env s
  = (Throw e,
     set_trace
       (trace (exec (loadModels env (modelUri (config s))) s)
        ++ [ConsoleError "Error during initialization: " [e]])
       (exec (loadModels env (modelUri (config s))) s))
  /\ (GetUserMedia ∉ emitted (initialize env) s)
  /\ videoStream (exec (initialize env) s) = videoStream s
  /\ canvas (exec (initialize env) s) = canvas s
  /\ videoElement (exec (initialize env) s) = videoElement s.
Proof.
  intros Hfail.
  assert (initialize env s
          = (Throw e,
             set_trace
               (trace (exec (loadModels env (modelUri (config s))) s)
                ++ [ConsoleError "Error during initialization: " [e]])
               (exec (loadModels env (modelUri (config s))) s))) as Hrun.
  { unfold initialize, try_catch. rewrite bind_get.
    erewrite bind_thrown; last first.
    { rewrite (pair_eta (loadModels _ _ _)), Hfail. reflexivity. }
    by rewrite bind_emit. }
  split; [exact Hrun|].
  unfold emitted. change (exec (initialize env) s) with (snd (initialize env s)).
  rewrite Hrun. cbn [snd]. unfold exec.
  destruct (loadModels_effect env (modelUri (config s)) s) as (extra & -> & Hextra).
  simpl. split; [|done].
  rewrite <- app_assoc, drop_app_length. intros [Hin|Hin]%elem_of_app.
  - rewrite Forall_forall in Hextra. by apply (Hextra _ Hin).
  - by apply list_elem_of_singleton in Hin.
Qed.

Lemma initialize_without_models_witness :
  fst (initialize offlineEnv demoStart)
  = Throw (Errors [Error "landmarks: 404"; Error "expressions: 404"])
  /\ (GetUserMedia ∉ emitted (initialize offlineEnv) demoStart).
Proof.
  destruct (initialize_without_models offlineEnv demoStart
              (Errors [Error "landmarks: 404"; Error "expressions: 404"])
              eq_refl) as (Hrun & Hcamera & _).
  split; [by rewrite Hrun | exact Hcamera].
Defined.

Lemma loadModels_fields (env : Env) (uri : string) (s : State) :
  videoStream (exec (loadModels env uri) s) = videoStream s
  /\ canvas (exec (loadModels env uri) s) = canvas s
  /\ canvasPool (exec (loadModels env uri) s) = canvasPool s
  /\ nextElement (exec (loadModels env uri) s) = nextElement s
  /\ videoElement (exec (loadModels env uri) s) = videoElement s
  /\ exists extra, trace (exec (loadModels env uri) s) = trace s ++ extra.
Proof.
  unfold exec.
  destruct (loadModels_effect env uri s) as (extra & -> & _). simpl.
  repeat split; try done. by exists extra.
Qed.

(** X9.  When the models load but the camera is refused, [initialize]
    rejects with the camera's error after writing it to the console; the
    instance is left without stream, takes no surface and registers no
    listener, so later 'play' events find nothing more to run. *)
Theorem initialize_without_camera (env : Env) (s : State) (b : bool)
    (e : JsError) :
  fst (loadModels env (modelUri (config s)) s) = Ok b ->
  videoStream s = None ->
  getUserMedia env = Throw e ->
  initialize env s
  = (Throw e,
     set_trace
       (trace (exec (loadModels env (modelUri (config s))) s)
        ++ [GetUserMedia; ConsoleError "Error during initialization: " [e]])
       (exec (loadModels env (modelUri (config s))) s))
  /\ videoStream (exec (initialize env) s) = None
  /\ canvas (exec (initialize env) s) = canvas s
  /\ canvasPool (exec (initialize env) s) = canvasPool s
  /\ videoElement (exec (initialize env) s) = videoElement s.
Proof.
  intros Hload Hstream Hcamera.
  destruct (loadModels_fields env (modelUri (config s)) s)
    as (Hs1 & Hc1 & Hp1 & _ & Hv1 & _).
  set (s1 := exec (loadModels env (modelUri (config s))) s) in *.
  assert (initialize env s
          = (Throw e,
             set_trace
               (trace s1
                ++ [GetUserMedia; ConsoleError "Error during initialization: " [e]])
               s1)) as Hrun.
  { unfold initialize, try_catch. rewrite bind_get.
    erewrite bind_ok; last first.
    { rewrite (pair_eta (loadModels _ _ _)), Hload. reflexivity. }
    fold (exec (loadModels env (modelUri (config s))) s). fold s1.
    erewrite bind_thrown; last first.
    { unfold setupWebcam. rewrite bind_get, Hs1, Hstream, bind_emit.
      apply bind_thrown. by rewrite Hcamera. }
    rewrite bind_emit. simpl. by rewrite <- app_assoc. }
  split; [exact Hrun|].
  change (exec (initialize env) s) with (snd (initialize env s)).
  rewrite Hrun. simpl. rewrite Hs1, Hstream. done.
Qed.

Lemma initialize_without_camera_witness :
  fst (initialize
         {| loadFromUri := loadFromUri demoEnv;
            fetchImage := fetchImage demoEnv;
            detectAllFaces := detectAllFaces demoEnv;
            getUserMedia := Throw (Error "NotAllowedError");
            trackStop := trackStop demoEnv;
            resizeResults := resizeResults demoEnv;
            descriptorDistance := descriptorDistance demoEnv |} demoStart)
  = Throw (Error "NotAllowedError").
Proof.
  destruct (initialize_without_camera
              {| loadFromUri := loadFromUri demoEnv;
                 fetchImage := fetchImage demoEnv;
                 detectAllFaces := detectAllFaces demoEnv;
                 getUserMedia := Throw (Error "NotAllowedError");
                 trackStop := trackStop demoEnv;
                 resizeResults := resizeResults demoEnv;
                 descriptorDistance := descriptorDistance demoEnv |}
              demoStart true (Error "NotAllowedError") eq_refl eq_refl eq_refl)
    as (Hrun & _).
  by rewrite Hrun.
Defined.

Lemma createCanvas_fresh (s : State) :
  canvas s = None ->
  canvasPool s = [] ->
  createCanvas s
  = (Ok tt,
     set_trace (trace s ++ [Append (nextElement s)])
       (set_canvas (Some (nextElement s))
          (set_nextElement (S (nextElement s)) s))).
Proof.
  intros Hc Hp. unfold createCanvas. rewrite bind_get, Hc.
  erewrite bind_ok; last first.
  { rewrite takeCanvas_run, Hp. reflexivity. }
  by rewrite bind_modify.
Qed.

Lemma updateCanvasSize_run (s : State) (c : Canvas) (v : VideoElement) :
  canvas s = Some c ->
  videoElement s = Some v ->
  updateCanvasSize s
  = (Ok tt,
     set_trace
       (trace s ++ [MatchDimensions c {| ds_width := width v; ds_height := height v |}])
       (set_displaySize (Some {| ds_width := width v; ds_height := height v |}) s)).
Proof.
  intros Hc Hv. unfold updateCanvasSize. rewrite bind_get, Hc.
  erewrite bind_ok by (by apply theVideo_run). cbv zeta.
  by rewrite bind_modify.
Qed.

(** What [setupWebcam] does on an instance that has a video element but no
    stream, no surface and an empty pool, when the camera is granted. *)
Lemma setupWebcam_acquires (env : Env) (s : State) (v : VideoElement)
    (stream : MediaStream) :
  videoStream s = None ->
  canvas s = None ->
  canvasPool s = [] ->
  videoElement s = Some v ->
  getUserMedia env = Ok stream ->
  let size := {| ds_width := width v; ds_height := height v |} in
  let c := nextElement s in
  setupWebcam env s
  = (Ok tt,
     set_trace (trace s ++ [GetUserMedia; Append c; MatchDimensions c size])
       (set_displaySize (Some size)
          (set_canvas (Some c)
             (set_nextElement (S c)
                (set_videoElement
                   (Some {| width := width v; height := height v;
                            srcObject := Some stream;
                            playListeners := playListeners v;
                            onended := onended v |})
                   (set_videoStream (Some stream) s)))))).
Proof.
  intros Hs Hc Hp Hv Hcam size c. unfold setupWebcam.
  rewrite bind_get, Hs, bind_emit, Hcam, bind_lift_ok, bind_modify.
  erewrite bind_ok by (apply updateVideo_run; exact Hv).
  erewrite bind_ok by (by apply createCanvas_fresh).
  erewrite updateCanvasSize_run; [|reflexivity|reflexivity].
  simpl. by rewrite <- !app_assoc.
Qed.

(** X10.  When the models load and the camera is granted, [initialize] on
    an instance without stream or surface succeeds and leaves it ready: the
    stream is held and shown by the video element, a new surface is in use
    and sized like the video, and one more 'play' listener and the 'ended'
    handler are registered.  The camera is asked for only after the models
    have been loaded. *)
Theorem initialize_ready (env : Env) (s : State) (b : bool)
    (v : VideoElement) (stream : MediaStream) :
  fst (loadModels env (modelUri (config s)) s) = Ok b ->
  videoStream s = None ->
  canvas s = None ->
  canvasPool s = [] ->
  videoElement s = Some v ->
  getUserMedia env = Ok stream ->
  let size := {| ds_width := width v; ds_height := height v |} in
  let c := nextElement s in
  fst (initialize env s) = Ok tt
  /\ emitted (initialize env) s
     = emitted (loadModels env (modelUri (config s))) s
       ++ [GetUserMedia; Append c; MatchDimensions c size]
  /\ videoStream (exec (initialize env) s) = Some stream
  /\ videoElement (exec (initialize env) s)
     = Some {| width := width v; height := height v; srcObject := Some stream;
               playListeners := S (playListeners v); onended := true |}
  /\ canvas (exec (initialize env) s) = Some c
  /\ canvasPool (exec (initialize env) s) = []
  /\ displaySize (exec (initialize env) s) = Some size.
Proof.
  intros Hload Hs Hc Hp Hv Hcam size c.
  destruct (loadModels_fields env (modelUri (config s)) s)
    as (Hs1 & Hc1 & Hp1 & Hn1 & Hv1 & extra & Ht1).
  unfold emitted at 2. rewrite Ht1, drop_app_length.
  set (s1 := exec (loadModels env (modelUri (config s))) s) in *.
  assert (exists s2,
    initialize env s = (Ok tt, s2)
    /\ trace s2 = trace s1 ++ [GetUserMedia; Append c; MatchDimensions c size]
    /\ videoStream s2 = Some stream
    /\ videoElement s2
       = Some {| width := width v; height := height v; srcObject := Some stream;
                 playListeners := S (playListeners v); onended := true |}
    /\ canvas s2 = Some c /\ canvasPool s2 = [] /\ displaySize s2 = Some size)
    as (s2 & Hrun & Ht2 & Hfields).
  { eexists. split.
    - unfold initialize, try_catch. rewrite bind_get.
      erewrite bind_ok; last first.
      { rewrite (pair_eta (loadModels _ _ _)), Hload. reflexivity. }
      fold (exec (loadModels env (modelUri (config s))) s). fold s1.
      erewrite bind_ok; last first.
      { apply (setupWebcam_acquires env s1 v stream); congruence. }
      unfold startProcessing. erewrite updateVideo_run; [|reflexivity].
      reflexivity.
    - simpl. rewrite Hn1, Hp1, Hp. fold c. done. }
  change (exec (initialize env) s) with (snd (initialize env s)).
  unfold emitted. change (exec (initialize env) s) with (snd (initialize env s)).
  rewrite Hrun. cbn [fst snd]. split; [done|]. split; [|exact Hfields].
  by rewrite Ht2, Ht1, <- app_assoc, drop_app_length.
Qed.

Lemma initialize_ready_witness :
  fst (initialize demoEnv demoStart) = Ok tt
  /\ canvas (exec (initialize demoEnv) demoStart) = Some 0.
Proof.
  destruct (initialize_ready demoEnv demoStart true demoVideo
              {| getTracks := [0; 1] |}
              eq_refl eq_refl eq_refl eq_refl eq_refl eq_refl)
    as (Hok & _ & _ & _ & Hcanvas & _).
  split; [exact Hok | exact Hcanvas].
Defined.

(** *** Acquiring and releasing twice *)

(** X11.  Acquiring is idempotent: after a [setupWebcam] that succeeded, the
    instance holds a stream, and a further [setupWebcam] does nothing; it
    neither asks for the camera again nor touches the surface. *)
Theorem setupWebcam_idempotent (env : Env) (s : State) :
  fst (setupWebcam env s) = Ok tt ->
  videoStream (exec (setupWebcam env) s) <> None
  /\ setupWebcam env (exec (setupWebcam env) s)
     = (Ok tt, exec (setupWebcam env) s).
Proof.
  intros Hok.
  assert (exists stream, videoStream (exec (setupWebcam env) s) = Some stream)
    as [stream Hstream].
  { revert Hok. unfold exec, setupWebcam. rewrite bind_get.
    destruct (videoStream s) as [stream|] eqn:Hs; [by exists stream|].
    rewrite bind_emit. destruct (getUserMedia env) as [stream|e]; [|done].
    rewrite bind_lift_ok, bind_modify. intros _. exists stream.
    match goal with
    | |- videoStream (snd (?rest ?st)) = _ =>
        cut (preserves (fun st' => videoStream st' = Some stream) rest);
        [ intros Hrest; exact (Hrest st eq_refl) | ]
    end.
    unfold updateVideo, theVideo, createCanvas, takeCanvas, updateCanvasSize,
      theVideo.
    preserve_with ltac:(by intros). }
  split; [by rewrite Hstream|].
  unfold setupWebcam at 1. by rewrite bind_get, Hstream.
Qed.

Lemma setupWebcam_idempotent_witness :
  setupWebcam demoEnv (exec (setupWebcam demoEnv) demoStart)
  = (Ok tt, exec (setupWebcam demoEnv) demoStart).
Proof.
  apply (setupWebcam_idempotent demoEnv demoStart). reflexivity.
Defined.

(** X12.  Releasing is idempotent: after a [stopWebcam] that succeeded, the
    instance holds no stream, and a further [stopWebcam] does nothing: no
    track is asked to stop twice and the pool is not touched again. *)
Theorem stopWebcam_idempotent (env : Env) (s : State) :
  fst (stopWebcam env s) = Ok tt ->
  videoStream (exec (stopWebcam env) s) = None
  /\ stopWebcam env (exec (stopWebcam env) s)
     = (Ok tt, exec (stopWebcam env) s).
Proof.
  intros Hok.
  assert (videoStream (exec (stopWebcam env) s) = None) as Hnone.
  { revert Hok. unfold exec, stopWebcam. rewrite bind_get.
    destruct (videoStream s) as [stream|] eqn:Hs; [|done].
    match goal with
    | |- context [bind (for_of ?xs ?body) _ s] =>
        destruct (for_of xs body s) as [[[]|e] s1] eqn:Hfor
    end.
    2:{ by rewrite !(bind_thrown _ _ s s1 e Hfor). }
    rewrite !(bind_ok _ _ s s1 tt Hfor), !bind_modify. intros _.
    match goal with
    | |- videoStream (snd (?rest ?st)) = _ =>
        cut (preserves (fun st' => videoStream st' = None) rest);
        [ intros Hrest; exact (Hrest st eq_refl) | ]
    end.
    unfold updateVideo, theVideo, cleanupCanvas, disposeFaceMatcher.
    preserve_with ltac:(by intros). }
  split; [done|]. by apply stopWebcam_idle.
Qed.

Lemma stopWebcam_idempotent_witness :
  stopWebcam demoEnv (exec (stopWebcam demoEnv) demoPlaying)
  = (Ok tt, exec (stopWebcam demoEnv) demoPlaying).
Proof.
  apply (stopWebcam_idempotent demoEnv demoPlaying). reflexivity.
Defined.

(** *** The matcher stays until it is disposed *)




(** *** What the build returns *)

Lemma map_get_set {V} (m : JsMap V) (k k' : string) (v : V) :
  map_get (map_set m k v) k' = if String.eqb k k' then Some v else map_get m k'.
Proof.
  induction m as [|[k0 v0] m IH]; simpl.
  - done.
  - destruct (String.eqb_spec k0 k) as [->|Hne]; simpl.
    + by destruct (String.eqb_spec k k').
    + rewrite IH. destruct (String.eqb_spec k0 k') as [->|Hne'];
        destruct (String.eqb_spec k k'); congruence.
Qed.

Lemma map_set_NoDup {V} (m : JsMap V) (k : string) (v : V) :
  NoDup (map_keys m) -> NoDup (map_keys (map_set m k v)).
Proof.
  induction m as [|[k0 v0] m IH]; simpl; intros Hnd.
  - apply NoDup_singleton.
  - apply NoDup_cons in Hnd as [Hnotin Hnd].
    destruct (String.eqb_spec k0 k) as [->|Hne]; simpl.
    + by apply NoDup_cons.
    + apply NoDup_cons. split; [|by apply IH].
      rewrite map_keys_set. intros [?|?]; congruence.
Qed.

Lemma fold_addLabel_NoDup (env : Env) (current : JsMap (list Descriptor))
    (L : list string) :
  forall acc, NoDup (map_keys acc) ->
    NoDup (map_keys (fold_left (addLabel env current) L acc)).
Proof.
  induction L as [|l L IH]; intros acc Hnd; [done|].
  simpl. apply IH. unfold addLabel.
  destruct (map_has current l); [done|].
  destruct (labelDescriptors env l); [by apply map_set_NoDup | done].
Qed.

Lemma fold_addLabel_get (env : Env) (current : JsMap (list Descriptor))
    (L : list string) (l : string) :
  forall acc,
    map_get (fold_left (addLabel env current) L acc) l
    = match (if bool_decide (l ∈ L) && negb (map_has current l)
             then labelDescriptors env l else None) with
      | Some ds => Some ds
      | None => map_get acc l
      end.
Proof.
  induction L as [|l0 L IH]; intros acc; cbn [fold_left].
  - rewrite bool_decide_eq_false_2 by apply not_elem_of_nil. done.
  - rewrite IH. unfold addLabel.
    destruct (decide (l = l0)) as [->|Hne].
    + rewrite (bool_decide_eq_true_2 (l0 ∈ l0 :: L)) by (by left).
      destruct (map_has current l0); simpl.
      { by rewrite andb_false_r. }
      rewrite andb_true_r.
      destruct (labelDescriptors env l0) as [ds|] eqn:Hds.
      * rewrite map_get_set, String.eqb_refl. by destruct (bool_decide _).
      * by destruct (bool_decide _).
    + assert (bool_decide (l ∈ l0 :: L) = bool_decide (l ∈ L)) as ->.
      { apply bool_decide_ext. rewrite elem_of_cons. naive_solver. }
      assert (map_get
                (if map_has current l0 then acc
                 else match labelDescriptors env l0 with
                      | Some ds => map_set acc l0 ds
                      | None => acc
                      end) l
              = map_get acc l) as ->; [|done].
      destruct (map_has current l0); [done|].
      destruct (labelDescriptors env l0) as [ds|]; [|done].
      rewrite map_get_set. destruct (String.eqb_spec l0 l); congruence.
Qed.

Lemma labelEvents_fetches (env : Env) (current : JsMap (list Descriptor))
    (L : list string) :
  List.filter is_fetch (flat_map (labelEvents env current) L)
  = map (fun l => FetchImage (imagePathOf l))
        (List.filter (fun l => negb (map_has current l)) L).
Proof.
  induction L as [|l L IH]; [done|].
  simpl. rewrite List.filter_app, IH. unfold labelEvents at 1.
  destruct (map_has current l); simpl; [done|].
  f_equal. destruct (fetchImage env (imagePathOf l)) as [img|e]; simpl; [|done].
  by destruct (detectAllFaces env img).
Qed.

(** X14.  The map that the build returns answers for every label: a label
    that is listed and not yet in the gallery of the instance is mapped to
    the descriptors of all faces of its image when the image can be fetched
    and analysed and shows a face; every other label has no entry.  No label
    has two entries.  The build fetches one image per listed label that is
    not in the gallery, in the order listed, a label listed twice being
    fetched twice. *)
Theorem getLabeledFaceDescriptors_lookup (env : Env) (L : list string)
    (s : State) :
  exists g,
    fst (getLabeledFaceDescriptors env L s) = Ok g
    /\ NoDup (map_keys g)
    /\ (forall l,
          map_get g l
          = if bool_decide (l ∈ L) && negb (map_has (labeledDescriptors s) l)
            then labelDescriptors env l
            else None)
    /\ List.filter is_fetch (emitted (getLabeledFaceDescriptors env L) s)
       = map (fun l => FetchImage (imagePathOf l))
             (List.filter (fun l => negb (map_has (labeledDescriptors s) l)) L).
Proof.
  eexists. rewrite emitted_build, getLabeledFaceDescriptors_run. cbn [fst].
  split; [done|]. split; [|split].
  - apply fold_addLabel_NoDup. apply NoDup_nil_2.
  - intros l. rewrite fold_addLabel_get. simpl.
    destruct (bool_decide (l ∈ L) && negb (map_has (labeledDescriptors s) l));
      [by destruct (labelDescriptors env l) | done].
  - apply labelEvents_fetches.
Qed.

(** *** The video element shows the stream held *)

Ltac shown_leaf :=
  intros;
  match goal with
  | H : streamShown _ |- _ =>
      let v := fresh in
      let Hv := fresh in
      destruct H as (v & Hv); exists v; exact Hv
  end.

Lemma updateVideo_streamShown (f : VideoElement -> VideoElement) :
  (forall v, srcObject (f v) = srcObject v) ->
  preserves streamShown (updateVideo f).
Proof.
  intros Hf s (v & Hv & Hsrc). rewrite (updateVideo_run f s v Hv).
  exists (f v). simpl. split; [done|]. by rewrite Hf.
Qed.

(** Storing a stream (or none) and showing it right after. *)
Lemma show_stream_streamShown (st : option MediaStream) {A} (k : M A) :
  preserves streamShown k ->
  preserves streamShown
    (do _ <- modify (set_videoStream st);
     do _ <- updateVideo (fun v =>
               {| width := width v; height := height v; srcObject := st;
                  playListeners := playListeners v; onended := onended v |});
     k).
Proof.
  intros Hk s (v & Hv & _). rewrite bind_modify.
  erewrite bind_ok by (apply updateVideo_run; exact Hv).
  apply Hk. eexists. by split.
Qed.

Lemma perform_streamShown (env : Env) (c : call) :
  preserves streamShown (perform env c).
Proof.
  assert (preserves streamShown
            (updateVideo (fun v =>
               {| width := width v; height := height v; srcObject := srcObject v;
                  playListeners := S (playListeners v); onended := true |})))
    as Hlisten.
  { apply updateVideo_streamShown. by intros v. }
  assert (preserves streamShown (updateVideo (fun v => v))) as Hsame.
  { apply updateVideo_streamShown. by intros v. }
  destruct c as [uri| | | | | | | | | | |detections|labels| | | |a]; simpl.
  all: try destruct a.
  all: unfold initialize, loadModels, setupWebcam, stopWebcam, startProcessing,
         stopProcessing, setupCanvas, createCanvas, cleanupCanvas, takeCanvas,
         updateCanvasSize, setupFaceMatcher, updateCanvas,
         getLabeledFaceDescriptors, disposeUnusedResources, disposeFaceMatcher,
         step, playHandler, processVideoFrames_start, processVideoFrames_resume,
         requestAnimationFrame, theVideo.
  all: try (repeat first [ apply show_stream_streamShown
                         | preserve_step shown_leaf ]).
  all: try (apply preserves_describeLabels; intros acc l; unfold describeLabel;
            preserve_with shown_leaf).
  all: try (preserve_with shown_leaf).
Qed.

(** X15.  On an instance whose video element shows the stream it holds (a
    new instance holds none), this stays so after every call: when a method
    has run, [srcObject] of the video element is exactly the stream stored in
    the instance, or null when there is none. *)
Theorem video_shows_held_stream (env : Env) (calls : list call) (s : State)
    (v0 : VideoElement) :
  videoElement s = Some v0 ->
  srcObject v0 = videoStream s ->
  exists v, videoElement (session env calls s) = Some v
            /\ srcObject v = videoStream (session env calls s).
Proof.
  intros Hv Hsrc. apply (preserves_session streamShown env calls).
  - apply perform_streamShown.
  - by exists v0.
Qed.

Lemma video_shows_held_stream_witness :
  exists v,
    videoElement (session demoEnv [CallInitialize; Host Play; CallStopProcessing]
                    demoStart) = Some v
    /\ srcObject v
       = videoStream (session demoEnv [CallInitialize; Host Play; CallStopProcessing]
                        demoStart).
Proof.
  apply (video_shows_held_stream demoEnv
           [CallInitialize; Host Play; CallStopProcessing] demoStart demoVideo);
    reflexivity.
Defined.

(** *** What the renderer does in every case *)

Lemma for_of_draw_unmatched (env : Env) (c : Canvas)
    (d : FaceDescription) (ds : list FaceDescription) (s : State) :
  faceMatcher s = None ->
  for_of (d :: ds) (fun detection =>
      do s <- get;
      match faceMatcher s with
      | None =>
          throw (TypeError "Cannot read properties of null (reading 'findBestMatch')")
      | Some matcher =>
          let best := findBestMatch (descriptorDistance env) matcher
                        (descriptor detection) in
          emit (DrawBox c (detection_box detection)
                  (boxLabel (config s) best detection))
      end) s
  = (Throw (TypeError "Cannot read properties of null (reading 'findBestMatch')"), s).
Proof.
  intros Hm. simpl for_of. apply bind_thrown. by rewrite bind_get, Hm.
Qed.

Lemma emitted_appended {A} (m : M A) (s : State) (r : result A)
    (drawn : list event) :
  m s = (r, set_trace (trace s ++ drawn) s) -> emitted m s = drawn.
Proof.
  intros Hrun. unfold emitted, exec. rewrite Hrun. cbn [snd].
  by rewrite trace_set_trace, drop_app_length.
Qed.

Lemma updateCanvas_no_surface (env : Env) (s : State)
    (detections : list FaceDescription) :
  canvas s = None ->
  exists e, updateCanvas env detections s
            = (Throw e, set_trace (trace s ++ []) s).
Proof.
  intros Hc. unfold updateCanvas. rewrite bind_get, Hc. simpl.
  eexists. by rewrite app_nil_r, set_trace_same.
Qed.

Lemma updateCanvas_no_matcher (env : Env) (s : State) (c : Canvas)
    (detections : list FaceDescription) :
  canvas s = Some c ->
  faceMatcher s = None ->
  exists r, updateCanvas env detections s
            = (r, set_trace (trace s ++ [ClearRect c]) s)
            /\ (detections = [] -> r = Ok tt)
            /\ (detections <> [] -> exists e, r = Throw e).
Proof.
  intros Hc Hm. unfold updateCanvas. rewrite bind_get, Hc, bind_emit.
  destruct detections as [|d ds].
  - exists (Ok tt). by split; [|split].
  - rewrite for_of_draw_unmatched by done. eexists. split; [done|].
    split; [done|]. intros _. by eexists.
Qed.

(** X16.  [updateCanvas] changes nothing in the instance; it only draws.
    Without a surface it throws before drawing anything.  With a surface it
    always clears first; with a matcher it then draws one labelled box per
    detection, in order; without a matcher it succeeds on an empty list of
    detections and otherwise throws, leaving the surface cleared and
    empty. *)
Theorem updateCanvas_cases (env : Env) (s : State)
    (detections : list FaceDescription) :
  exec (updateCanvas env detections) s
  = set_trace (trace s ++ emitted (updateCanvas env detections) s) s
  /\ (canvas s = None ->
      emitted (updateCanvas env detections) s = []
      /\ exists e, fst (updateCanvas env detections s) = Throw e)
  /\ (forall c, canvas s = Some c -> faceMatcher s = None ->
      emitted (updateCanvas env detections) s = [ClearRect c]
      /\ (detections = [] -> fst (updateCanvas env detections s) = Ok tt)
      /\ (detections <> [] ->
          exists e, fst (updateCanvas env detections s) = Throw e))
  /\ (forall c m, canvas s = Some c -> faceMatcher s = Some m ->
      emitted (updateCanvas env detections) s
      = ClearRect c :: map (drawn env (config s) c m) detections
      /\ fst (updateCanvas env detections s) = Ok tt).
Proof.
  assert (forall r l,
    updateCanvas env detections s = (r, set_trace (trace s ++ l) s) ->
    exec (updateCanvas env detections) s
    = set_trace (trace s ++ emitted (updateCanvas env detections) s) s)
    as Hkeeps.
  { intros r l Hrun. rewrite (emitted_appended _ _ _ _ Hrun).
    unfold exec. by rewrite Hrun. }
  split; [|split; [|split]].
  - destruct (canvas s) as [c|] eqn:Hc.
    + destruct (faceMatcher s) as [m|] eqn:Hm.
      * eapply Hkeeps. by apply updateCanvas_run.
      * destruct (updateCanvas_no_matcher env s c detections Hc Hm)
          as (r & Hrun & _).
        by eapply Hkeeps.
    + destruct (updateCanvas_no_surface env s detections Hc) as (e & Hrun).
      by eapply Hkeeps.
  - intros Hc.
    destruct (updateCanvas_no_surface env s detections Hc) as (e & Hrun).
    split; [by apply (emitted_appended _ _ _ _ Hrun)|].
    exists e. by rewrite Hrun.
  - intros c Hc Hm.
    destruct (updateCanvas_no_matcher env s c detections Hc Hm)
      as (r & Hrun & Hempty & Hsome).
    split; [by apply (emitted_appended _ _ _ _ Hrun)|].
    rewrite Hrun. by split.
  - intros c m Hc Hm.
    pose proof (updateCanvas_run env s c m detections Hc Hm) as Hrun.
    split; [by apply (emitted_appended _ _ _ _ Hrun)|]. by rewrite Hrun.
Qed.

(** *** The words of a text *)

Lemma dropWhiteSpace_free (w : JsString) :
  Forall (fun u => isWhiteSpace u = false) w -> dropWhiteSpace w = w.
Proof. intros Hw. destruct Hw as [|u w Hu _]; simpl; [done | by rewrite Hu]. Qed.

Lemma trim_free (w : JsString) :
  Forall (fun u => isWhiteSpace u = false) w -> trim w = w.
Proof.
  intros Hw. unfold trim. rewrite (dropWhiteSpace_free w Hw).
  rewrite dropWhiteSpace_free by (by apply Forall_rev).
  apply rev_involutive.
Qed.

Lemma splitPieces_free (text : JsString) :
  forall piece skipping,
    Forall (fun u => isWhiteSpace u = false) piece ->
    Forall (Forall (fun u => isWhiteSpace u = false))
      (splitPieces piece skipping text).
Proof.
  induction text as [|u rest IH]; intros piece skipping Hpiece; simpl.
  - repeat constructor. by apply Forall_rev.
  - destruct (isWhiteSpace u) eqn:Hu.
    + destruct skipping; [by apply IH|].
      constructor; [by apply Forall_rev | by apply IH].
    + apply IH. by constructor.
Qed.

(** Among pieces free of white space, the filter of [textWords] keeps the
    pieces that are not empty. *)
Lemma words_of_pieces (pieces : list JsString) :
  Forall (Forall (fun u => isWhiteSpace u = false)) pieces ->
  List.filter (fun word => negb (bool_decide (trim word = []))) pieces
  = List.filter (fun word => negb (bool_decide (word = []))) pieces.
Proof.
  intros Hfree. induction Hfree as [|w pieces Hw _ IH]; [done|].
  simpl. by rewrite IH, (trim_free w Hw).
Qed.

Lemma textWords_pieces (text : JsString) :
  textWords text
  = List.filter (fun word => negb (bool_decide (word = [])))
      (splitWhiteSpace text).
Proof. apply words_of_pieces, splitPieces_free. constructor. Qed.

Lemma splitPieces_skipping (text : JsString) :
  List.filter (fun word => negb (bool_decide (word = [])))
    (splitPieces [] true text)
  = List.filter (fun word => negb (bool_decide (word = [])))
      (splitPieces [] false text).
Proof.
  destruct text as [|u rest]; [done|]. simpl.
  by destruct (isWhiteSpace u).
Qed.

Lemma splitPieces_app (a b : JsString) (u : N) :
  isWhiteSpace u = true ->
  forall piece skipping,
    (skipping = true -> piece = []) ->
    List.filter (fun word => negb (bool_decide (word = [])))
      (splitPieces piece skipping (a ++ u :: b))
    = List.filter (fun word => negb (bool_decide (word = [])))
        (splitPieces piece skipping a)
      ++ List.filter (fun word => negb (bool_decide (word = [])))
           (splitPieces [] false b).
Proof.
  intros Hu. induction a as [|x a IH]; intros piece skipping Hskip; simpl.
  - rewrite Hu. destruct skipping.
    + rewrite (Hskip eq_refl). simpl. apply splitPieces_skipping.
    + simpl. rewrite splitPieces_skipping.
      by destruct (bool_decide (rev piece = [])).
  - destruct (isWhiteSpace x).
    + destruct skipping; simpl; rewrite IH by done; [done|].
      by destruct (bool_decide (rev piece = [])).
    + by apply IH.
Qed.

Lemma splitPieces_word (w piece : JsString) :
  Forall (fun u => isWhiteSpace u = false) w ->
  splitPieces piece false w = [rev piece ++ w].
Proof.
  intros Hw. revert piece. induction Hw as [|u w Hu _ IH]; intros piece; simpl.
  - by rewrite app_nil_r.
  - rewrite Hu, IH. simpl. by rewrite <- app_assoc.
Qed.

Lemma splitPieces_concat (text : JsString) :
  forall piece skipping,
    (skipping = true -> piece = []) ->
    concat (splitPieces piece skipping text)
    = rev piece ++ List.filter (fun u => negb (isWhiteSpace u)) text.
Proof.
  induction text as [|u rest IH]; intros piece skipping Hskip; simpl.
  - by rewrite !app_nil_r.
  - destruct (isWhiteSpace u); simpl.
    + destruct skipping; simpl; rewrite IH by done; [|done].
      by rewrite (Hskip eq_refl).
    + rewrite IH by done. simpl. by rewrite <- app_assoc.
Qed.

Lemma concat_nonempty (pieces : list JsString) :
  concat (List.filter (fun word => negb (bool_decide (word = []))) pieces)
  = concat pieces.
Proof.
  induction pieces as [|w pieces IH]; [done|]. simpl.
  destruct w; simpl; [done|]. by rewrite IH.
Qed.

(** X17.  The words of a text are its maximal runs of code units that are
    not white space: a text made of such code units only is its one word
    (the empty text has none), and white space between two texts separates
    their words.  So no word is empty or holds white space, and what the
    text loses by being cut into words is exactly its white space. *)
Theorem textWords_runs (text : JsString) :
  Forall (fun w => w <> [] /\ Forall (fun u => isWhiteSpace u = false) w)
    (textWords text)
  /\ concat (textWords text)
     = List.filter (fun u => negb (isWhiteSpace u)) text
  /\ (Forall (fun u => isWhiteSpace u = false) text ->
      textWords text = if bool_decide (text = []) then [] else [text])
  /\ (forall a b u, text = a ++ u :: b -> isWhiteSpace u = true ->
      textWords text = textWords a ++ textWords b).
Proof.
  rewrite !textWords_pieces. unfold splitWhiteSpace. split; [|split; [|split]].
  - apply Forall_forall. intros w [Hin Hne]%list_elem_of_In%filter_In.
    split.
    + intros ->. done.
    + pose proof (splitPieces_free text [] false (List.Forall_nil _)) as Hfree.
      rewrite Forall_forall in Hfree. by apply Hfree, list_elem_of_In.
  - by rewrite concat_nonempty, splitPieces_concat.
  - intros Hfree. rewrite (splitPieces_word text [] Hfree). simpl.
    by repeat case_bool_decide.
  - intros a b u -> Hu. rewrite !textWords_pieces. unfold splitWhiteSpace.
    by apply splitPieces_app.
Qed.

(** *** Cleaning words *)

Lemma removeNonAlphabetic_letters (word : JsString) :
  forallb isAsciiLetter (removeNonAlphabetic word) = true.
Proof.
  apply forallb_forall. intros u Hin. by apply filter_In in Hin as [_ Hu].
Qed.

Lemma removeNonAlphabetic_fixed (word : JsString) :
  forallb isAsciiLetter word = true -> removeNonAlphabetic word = word.
Proof.
  intros Hall. unfold removeNonAlphabetic.
  induction word as [|u word IH]; [done|]. simpl in *.
  apply andb_true_iff in Hall as [-> Hall]. by rewrite IH.
Qed.

Lemma includes_ampersand (word : JsString) :
  existsb (includesUnit word) [ampersand] = true <-> ampersand ∈ word.
Proof.
  simpl. rewrite orb_false_r. unfold includesUnit. rewrite existsb_exists.
  split.
  - intros (u & Hin & Heq). apply N.eqb_eq in Heq. subst u.
    by apply list_elem_of_In.
  - intros Hin. exists ampersand.
    split; [by apply list_elem_of_In | apply N.eqb_refl].
Qed.

Lemma letters_no_ampersand (word : JsString) :
  forallb isAsciiLetter word = true -> ampersand ∉ word.
Proof.
  intros Hall Hin. rewrite forallb_forall in Hall.
  by apply list_elem_of_In, Hall in Hin.
Qed.

Lemma filterWords_elem (words : list JsString) (w : JsString) :
  w ∈ filterWords words
  <-> exists word, word ∈ words /\ (ampersand ∉ word)
                   /\ w = removeNonAlphabetic word.
Proof.
  unfold filterWords. rewrite list_elem_of_fmap. split.
  - intros (word & -> & [Hin Hamp]%list_elem_of_In%filter_In).
    exists word. split; [by apply list_elem_of_In|]. split; [|done].
    intros Hmem%includes_ampersand. by rewrite Hmem in Hamp.
  - intros (word & Hin & Hamp & ->). exists word. split; [done|].
    apply list_elem_of_In, filter_In. split; [by apply list_elem_of_In|].
    apply negb_true_iff, not_true_is_false. by intros ?%includes_ampersand.
Qed.

Lemma filterWords_letters (words : list JsString) :
  Forall (fun w => forallb isAsciiLetter w = true) (filterWords words).
Proof.
  unfold filterWords. apply Forall_fmap, Forall_forall. intros w _.
  apply removeNonAlphabetic_letters.
Qed.

(** X18.  [filterWords] drops every word that holds "&" and strips the
    others of everything but the letters a-z and A-Z, keeping their order:
    the result holds letters only and is never longer than the input, and
    cleaning a cleaned list changes nothing. *)
Theorem filterWords_cleans (words : list JsString) :
  Forall (fun w => forallb isAsciiLetter w = true) (filterWords words)
  /\ (forall w, w ∈ filterWords words
       <-> exists word, word ∈ words /\ (ampersand ∉ word)
                        /\ w = removeNonAlphabetic word)
  /\ length (filterWords words) <= length words
  /\ filterWords (filterWords words) = filterWords words.
Proof.
  pose proof (filterWords_letters words) as Hletters.
  split; [done|]. split; [apply filterWords_elem|]. split.
  - unfold filterWords. rewrite length_map. apply filter_length_le.
  - induction Hletters as [|w ws Hw _ IH]; [done|].
    unfold filterWords in *.
    cbn [List.filter].
    destruct (existsb (includesUnit w) [ampersand]) eqn:Hamp.
    { apply includes_ampersand in Hamp.
      by apply letters_no_ampersand in Hamp. }
    cbn [negb map]. by rewrite (removeNonAlphabetic_fixed w Hw), IH.
Qed.

(** *** The common words of two texts *)

Lemma findCommonElements_elem (textOne textTwo w : JsString) :
  w ∈ findCommonElements textOne textTwo
  <-> w ∈ filterWords (textWords textOne)
      /\ w ∈ filterWords (textWords textTwo).
Proof.
  unfold findCommonElements. cbv zeta.
  rewrite list_elem_of_In, filter_In, <- list_elem_of_In.
  by rewrite bool_decide_eq_true.
Qed.

(** X19.  A word is common to two texts when a word of the first and a
    word of the second, both free of "&", leave it once stripped to their
    letters; which text comes first does not change which words are
    common.  As a list the result follows the first text: it is the cleaned
    words of the first text with those that are not common left out, in
    their order and with their repetitions. *)
Theorem findCommonElements_common (textOne textTwo : JsString) :
  (forall w, w ∈ findCommonElements textOne textTwo
     <-> exists a b, a ∈ textWords textOne /\ b ∈ textWords textTwo
                     /\ (ampersand ∉ a) /\ (ampersand ∉ b)
                     /\ removeNonAlphabetic a = w
                     /\ removeNonAlphabetic b = w)
  /\ (forall w, w ∈ findCommonElements textOne textTwo
        <-> w ∈ findCommonElements textTwo textOne)
  /\ findCommonElements textOne textTwo
     = List.filter
         (fun w => bool_decide (w ∈ findCommonElements textTwo textOne))
         (filterWords (textWords textOne)).
Proof.
  split; [|split].
  - intros w. rewrite findCommonElements_elem, !filterWords_elem. split.
    + intros [(a & Ha & Hna & ->) (b & Hb & Hnb & Heq)].
      by exists a, b.
    + intros (a & b & Ha & Hb & Hna & Hnb & <- & Heq).
      split; [by exists a | by exists b].
  - intros w. rewrite !findCommonElements_elem. tauto.
  - unfold findCommonElements at 1. cbv zeta.
    apply filter_ext_in. intros w Hin%list_elem_of_In.
    apply bool_decide_ext. rewrite findCommonElements_elem. tauto.
Qed.

(** *** The verdict *)

Lemma setOrder_elem (words : list JsString) :
  forall seen w, w ∈ setOrder seen words <-> w ∈ words /\ (w ∉ seen).
Proof.
  induction words as [|x words IH]; intros seen w; simpl.
  - set_solver.
  - destruct (bool_decide (x ∈ seen)) eqn:Hx.
    + apply bool_decide_eq_true in Hx. rewrite IH. set_solver.
    + apply bool_decide_eq_false in Hx.
      rewrite elem_of_cons, IH.
      destruct (decide (w = x)) as [->|Hne]; set_solver.
Qed.

Lemma setOrder_NoDup (words : list JsString) :
  forall seen, NoDup (setOrder seen words).
Proof.
  induction words as [|x words IH]; intros seen; simpl; [constructor|].
  destruct (bool_decide (x ∈ seen)); [apply IH|].
  constructor; [|apply IH]. rewrite setOrder_elem. set_solver.
Qed.





